(** * share/eds: writing an extended data square as a CARv1 archive

    A shallow embedding of [share/eds/eds.go] and the properties of its
    write pipeline [WriteEDS].

    - Go [int] and [uint] are 64-bit; they are modelled as [Z] with the
      wrap-around of every arithmetic operation written out.
    - A Go [[]byte] is a slice header (backing array, offset, length,
      capacity) over a store of backing arrays, so that the in-place case of
      [append] is part of the model.
    - The pipeline threads a world (the store of backing arrays and the log
      of the calls made to the collaborators: sink, cache, matrix library)
      through a state monad whose results are a value, a Go [error] or a
      panic. *)

From Stdlib Require Import ZArith Lia Strings.Byte.
From Stdlib Require Import Floats.SpecFloat.
From stdpp Require Import base list strings.

Local Open Scope Z_scope.

#[global] Instance byte_eq_dec : EqDecision byte := Byte.byte_eq_dec.

(** ** Machine integers *)

(** Go [uint] on a 64-bit platform. *)
Definition wrap_uint (z : Z) : Z := z mod 2 ^ 64.

(** Go [int] on a 64-bit platform (two's complement). *)
Definition wrap_int (z : Z) : Z := (z + 2 ^ 63) mod 2 ^ 64 - 2 ^ 63.

Definition max_int : Z := 2 ^ 63 - 1.

(** ** Errors and panics *)

(** The error taxonomy of the pipeline's collaborators. *)
Inductive errkind :=
  | ValidationError
  | ReconstructionError
  | CacheError
  | IdentifierDerivationError
  | IOError
  | CancellationError.

(** Go [error] values: the package's sentinel, an error produced by a
    collaborator, and [fmt.Errorf("<msg>: %w", cause)]. *)
Inductive error :=
  | ErrEmptySquare
  | External (k : errkind) (msg : string)
  | Errorf (msg : string) (cause : error).

(** [errors.Unwrap]. *)
Definition Unwrap (e : error) : option error :=
  match e with
  | Errorf _ cause => Some cause
  | _ => None
  end.

(** The innermost error of a chain of [%w] wrappers. *)
Fixpoint root_cause (e : error) : error :=
  match e with
  | Errorf _ cause => root_cause cause
  | _ => e
  end.

Definition kind_of (e : error) : errkind :=
  match root_cause e with
  | External k _ => k
  | _ => ValidationError
  end.

#[global] Instance errkind_eq_dec : EqDecision errkind.
Proof. solve_decision. Defined.

#[global] Instance error_eq_dec : EqDecision error.
Proof. solve_decision. Defined.

(** [errors.Is err target]: [target] occurs on the [Unwrap] chain of [err]. *)
Fixpoint errors_Is (err target : error) : bool :=
  if decide (err = target) then true
  else match err with
       | Errorf _ cause => errors_Is cause target
       | _ => false
       end.

Inductive panic :=
  | PanicInvalidQuadrant      (* panic("invalid quadrant") *)
  | PanicSliceBounds          (* slice bounds out of range *)
  | PanicIndexOutOfRange      (* index out of range *)
  | PanicMakeSlice.           (* makeslice: len out of range *)

Inductive result (A : Type) :=
  | Ok (a : A)
  | Err (e : error)
  | Panic (p : panic).
Arguments Ok {A} a.
Arguments Err {A} e.
Arguments Panic {A} p.

(** ** Slices over backing arrays *)

(** The store of backing arrays; allocation adds an array at the end. *)
Abbreviation heap := (list (list byte)).

Record slice := Slice {
  s_arr : nat;   (* backing array *)
  s_off : nat;   (* first element within the array *)
  s_len : nat;
  s_cap : nat
}.

Definition nil_slice : slice := Slice 0 0 0 0.

#[global] Instance slice_inhabited : Inhabited slice := populate nil_slice.

(** The bytes a slice denotes in a store. *)
Definition rd (h : heap) (s : slice) : list byte :=
  take (s_len s) (drop (s_off s) (default [] (h !! s_arr s))).

(** The slice lies within an allocated array. *)
Definition valid (h : heap) (s : slice) : Prop :=
  ∃ a, h !! s_arr s = Some a ∧
       (s_off s + s_cap s ≤ length a)%nat ∧ (s_len s ≤ s_cap s)%nat.

(** [s[:hi]]: allowed up to the capacity, not only up to the length. *)
Definition reslice (s : slice) (hi : nat) : result slice :=
  if decide (hi ≤ s_cap s)%nat
  then Ok (Slice (s_arr s) (s_off s) hi (s_cap s))
  else Panic PanicSliceBounds.

(** Overwrite [data] into array [a] from position [pos]. *)
Definition blit (a : list byte) (pos : nat) (data : list byte) : list byte :=
  take pos a ++ data ++ drop (pos + length data) a.

(** [append(dst, data...)]. With room left in [dst]'s capacity the bytes are
    written into [dst]'s backing array, behind its length; otherwise a new
    array is allocated. The source bytes are read before anything is
    written (the runtime copies with memmove). Go may round the capacity of
    the new array up; the pipeline never appends to the result of an
    [append], so the model allocates exactly. *)
Definition go_append (h : heap) (dst : slice) (data : list byte) : heap * slice :=
  let n := (s_len dst + length data)%nat in
  if decide (n ≤ s_cap dst)%nat then
    (alter (λ a, blit a (s_off dst + s_len dst) data) (s_arr dst) h,
     Slice (s_arr dst) (s_off dst) n (s_cap dst))
  else
    (h ++ [rd h dst ++ data], Slice (length h) 0 n n).

(** [append(c, data...)] for a slice [c] that denotes the bytes [const] and
    has no spare capacity (a composite literal): always a new array. *)
Definition go_append_const (h : heap) (const data : list byte) : heap * slice :=
  let n := (length const + length data)%nat in
  (h ++ [const ++ data], Slice (length h) 0 n n).

(** ** Floating point: the original width from the share count *)

(** IEEE 754 binary64, as Go's [float64]. *)
Definition prec : Z := 53.
Definition emax : Z := 1024.

(** [float64(n)] for an integer [n]: rounded to nearest, ties to even. *)
Definition float64_of_int (n : Z) : spec_float :=
  binary_normalize prec emax n 0 false.

(** [math.Sqrt]: the correctly rounded square root. *)
Definition math_Sqrt (x : spec_float) : spec_float := SFsqrt prec emax x.

Definition float64_div (x y : spec_float) : spec_float := SFdiv prec emax x y.

(** [int(x)] for a [float64]: the fraction is discarded (truncation towards
    zero). Go leaves the result open when the value does not fit; the model
    takes what amd64 yields there, the smallest [int]. *)
Definition int_of_float64 (x : spec_float) : Z :=
  match x with
  | S754_zero _ => 0
  | S754_finite s m e =>
      let v := if 0 <=? e then Z.pos m * 2 ^ e else Z.pos m / 2 ^ (- e) in
      let v := if s then - v else v in
      if (- 2 ^ 63 <=? v) && (v <=? max_int) then v else - 2 ^ 63
  | _ => - 2 ^ 63
  end.

(** [int(math.Sqrt(float64(shareCount)) / 2)] *)
Definition odsWidthOf (shareCount : Z) : Z :=
  int_of_float64
    (float64_div (math_Sqrt (float64_of_int shareCount)) (float64_of_int 2)).

(** An integer that a float64 holds exactly: at most 53 significant bits. *)
Definition float64_exact (n : Z) : Prop :=
  ∃ m e, n = m * 2 ^ e ∧ 0 ≤ e ∧ 0 ≤ m < 2 ^ 53.

(** ** The matrix *)

(** Modelled from the spec: the type [rsmt2d.ExtendedDataSquare] is declared
    outside the sources at hand. The matrix exposes its width, the cell at a
    row and a column (here the slice header held for it) and the row and
    column roots, one per index below the width. *)
Record ExtendedDataSquare := {
  Width : Z;
  cell : Z → Z → slice;
  rowRoot : Z → list byte;
  colRoot : Z → list byte
}.

(** [eds.RowRoots()] and [eds.ColRoots()], in index order. *)
Definition RowRoots (eds : ExtendedDataSquare) : list (list byte) :=
  rowRoot eds <$> seqZ 0 (Width eds).

Definition ColRoots (eds : ExtendedDataSquare) : list (list byte) :=
  colRoot eds <$> seqZ 0 (Width eds).

(** [eds.GetCell(x, y)]: indexing outside the square panics. The accessor
    hands out the slice header of the cell; whether the matrix library
    copied the bytes shows in where that slice lives and in its capacity. *)
Definition GetCell (eds : ExtendedDataSquare) (x y : Z) : result slice :=
  if (0 <=? x) && (x <? Width eds) && (0 <=? y) && (y <? Width eds)
  then Ok (cell eds x y)
  else Panic PanicIndexOutOfRange.

(** Modelled from the spec: [share.ExtractEDS] is not part of the sources at
    hand; it yields the raw shares of the matrix in row-major order. *)
Definition ExtractEDS (eds : ExtendedDataSquare) : list slice :=
  x ← seqZ 0 (Width eds); cell eds x <$> seqZ 0 (Width eds).

(** ** The batch size *)

(** [innerNodeBatchSize]: [(shareCount * 2) - (odsWidth * 4)] on [int]. *)
Definition innerNodeBatchSize (shareCount odsWidth : Z) : Z :=
  wrap_int (wrap_int (shareCount * 2) - wrap_int (odsWidth * 4)).

(** ** The world and the monad of the pipeline *)

Inductive section := LeafSection | ProofSection.

Inductive phase := Reconstruction | Header | Leaves | Proofs.

(** The annotation [WriteEDS] puts on an error of each phase. *)
Definition annotation (ph : phase) : string :=
  match ph with
  | Reconstruction => "share: failure creating eds writer"
  | Header => "share: failure writing carv1 header"
  | Leaves => "share: failure writing shares"
  | Proofs => "share: failure writing proofs"
  end.

Definition phase_index (ph : phase) : Z :=
  match ph with
  | Reconstruction => 1
  | Header => 2
  | Leaves => 3
  | Proofs => 4
  end.

Section Pipeline.

Context {Cid : Type} `{EqDecision Cid}.

(** Calls to the collaborators, as the log records them. *)
Inductive call :=
  | NewNmtNodeAdder (batchSize : Z)
  | ImportExtendedDataSquare (odsWidth : Z)
  | ComputeRowRoots
  | Commit
  | WriteHeader (roots : list Cid) (version : Z)
  | LdWrite (sec : section) (c : Cid) (data : list byte)
  | AllKeysChan
  | Get (c : Cid).

(** A log entry: the call and whether it returned without error. *)
Definition entry : Type := call * bool.

Record world := World {
  mem : heap;
  log : list entry
}.

Definition M (A : Type) : Type := world → world * result A.

Definition ret {A} (a : A) : M A := λ w, (w, Ok a).

Definition bind {A B} (m : M A) (f : A → M B) : M B :=
  λ w, match m w with
       | (w', Ok a) => f a w'
       | (w', Err e) => (w', Err e)
       | (w', Panic p) => (w', Panic p)
       end.

Notation "'let*' x ':=' m 'in' k" := (bind m (λ x, k))
  (at level 10, x name, m at level 100, k at level 200).
Notation "'do' m 'then' k" := (bind m (λ _, k))
  (at level 10, m at level 100, k at level 200).

Definition lift {A} (r : result A) : M A := λ w, (w, r).

(** [if err != nil { return fmt.Errorf("<msg>: %w", err) }] *)
Definition wrapped {A} (msg : string) (m : M A) : M A :=
  λ w, match m w with
       | (w', Err e) => (w', Err (Errorf msg e))
       | other => other
       end.

Definition of_sum {A} (r : error + A) : result A :=
  match r with inl e => Err e | inr a => Ok a end.

(** A loop over [l] that carries [b]; it stops at the first error or panic. *)
Fixpoint foldM {A B} (f : B → A → M B) (l : list A) (b : B) : M B :=
  match l with
  | [] => ret b
  | a :: l' => let* b' := f b a in foldM f l' b'
  end.

Definition forM_ {A} (f : A → M unit) (l : list A) : M unit :=
  foldM (λ _ a, f a) l tt.

(** *** Collaborators *)

(** The parity namespace of [appconsts]. *)
Variable ParitySharesNamespaceID : list byte.

(** [ipld.CidFromNamespacedSha256] *)
Variable CidFromNamespacedSha256 : list byte → error + Cid.

(** [nmt.Sha256Namespace8FlaggedLeaf] and [nmt.Sha256Namespace8FlaggedInner] *)
Variable Sha256Namespace8FlaggedLeaf : list byte → list byte.
Variable Sha256Namespace8FlaggedInner : list byte → list byte.

(** [rsmt2d.ImportExtendedDataSquare] with the tree constructor whose
    visitor is the batch adder: from the shares and the store it yields the
    store afterwards and either an error or the reconstructed matrix
    together with the inner nodes its trees hand to the visitor. *)
Variable importSquare :
  list slice → Z → heap → heap * (error + ExtendedDataSquare * list (Cid * list byte)).

(** Whether a call to the sink or to the cache fails, given the calls made so
    far. This is where write errors, cache errors and cancellation enter. *)
Variable fault : list entry → call → option error.

(** A call that cannot fail. *)
Definition emit (c : call) : M unit :=
  λ w, (World (mem w) (log w ++ [(c, true)]), Ok tt).

(** A call that may fail. *)
Definition invoke (c : call) : M unit :=
  λ w, match fault (log w) c with
       | None => (World (mem w) (log w ++ [(c, true)]), Ok tt)
       | Some e => (World (mem w) (log w ++ [(c, false)]), Err e)
       end.

Definition read (s : slice) : M (list byte) := λ w, (w, Ok (rd (mem w) s)).

(** ** Namespace tagging *)

(** [prependNamespace] *)
Definition prependNamespace (quadrant : Z) (share : slice) : M slice :=
  if quadrant =? 0 then
    let* ns := lift (reslice share 8) in
    λ w, let '(h, r) := go_append (mem w) ns (rd (mem w) share) in
         (World h (log w), Ok r)
  else if (quadrant =? 1) || (quadrant =? 2) || (quadrant =? 3) then
    λ w, let '(h, r) :=
           go_append_const (mem w) ParitySharesNamespaceID (rd (mem w) share) in
         (World h (log w), Ok r)
  else lift (Panic PanicInvalidQuadrant).

(** ** Quadrant reordering *)

(** [getQuadrantCells] *)
Definition getQuadrantCells (eds : ExtendedDataSquare) (i j : Z) : M (list slice) :=
  let quadrantWidth := Width eds / 2 in
  let* c0 := lift (GetCell eds i j) in
  let* c1 := lift (GetCell eds i (wrap_uint (j + quadrantWidth))) in
  let* c2 := lift (GetCell eds (wrap_uint (i + quadrantWidth)) j) in
  let* c3 := lift (GetCell eds (wrap_uint (i + quadrantWidth))
                               (wrap_uint (j + quadrantWidth))) in
  ret [c0; c1; c2; c3].

(** [make([][]byte, size)] *)
Definition make_slices (size : Z) : result (list slice) :=
  if size <=? max_int then Ok (replicate (Z.to_nat size) nil_slice)
  else Panic PanicMakeSlice.

(** [l[i]] *)
Definition index {A} (l : list A) (i : Z) : result A :=
  if 0 <=? i then
    match l !! Z.to_nat i with
    | Some a => Ok a
    | None => Panic PanicIndexOutOfRange
    end
  else Panic PanicIndexOutOfRange.

(** [l[i] = v] *)
Definition set_index {A} (l : list A) (i : Z) (v : A) : result (list A) :=
  if (0 <=? i) && (i <? Z.of_nat (length l))
  then Ok (<[Z.to_nat i := v]> l)
  else Panic PanicIndexOutOfRange.

(** [quadrantOrder] *)
Definition quadrantOrder (eds : ExtendedDataSquare) : M (list slice) :=
  let size := wrap_uint (Width eds * Width eds) in
  let* shares := lift (make_slices size) in
  let quadrantWidth := wrap_int (Width eds / 2) in
  let quadrantSize := wrap_int (quadrantWidth * quadrantWidth) in
  foldM (λ shares i,
    foldM (λ shares j,
      let* cells := getQuadrantCells eds (wrap_uint i) (wrap_uint j) in
      let innerOffset := wrap_int (wrap_int (i * quadrantWidth) + j) in
      foldM (λ shares quadrant,
        let* c := lift (index cells quadrant) in
        let* tagged := prependNamespace quadrant c in
        lift (set_index shares
                (wrap_int (wrap_int (quadrant * quadrantSize) + innerOffset))
                tagged))
        (seqZ 0 4) shares)
      (seqZ 0 quadrantWidth) shares)
    (seqZ 0 quadrantWidth) shares.

(** ** The cache of inner nodes *)

(** The in-memory blockstore, keyed by content identifier. *)
Abbreviation blockstore := (list (Cid * list byte)).

Fixpoint store_get (st : blockstore) (c : Cid) : option (list byte) :=
  match st with
  | [] => None
  | (c', d) :: st' => if decide (c' = c) then Some d else store_get st' c
  end.

(** [Put]: a key that is present keeps its block. *)
Definition store_put (st : blockstore) (b : Cid * list byte) : blockstore :=
  match store_get st b.1 with
  | Some _ => st
  | None => st ++ [b]
  end.

(** The order in which [AllKeysChan] delivers the keys of the store is left
    to the datastore. *)
Variable keysOrder : list Cid → list Cid.

(** ** The writing session *)

(** [writingSession]; its writer [w] is the sink whose calls the log of the
    world records. *)
Record writingSession := {
  ws_eds : ExtendedDataSquare;
  ws_store : blockstore
}.

Definition import (shares : list slice) (odsWidth : Z)
  : M (ExtendedDataSquare * list (Cid * list byte)) :=
  λ w, let '(h, r) := importSquare shares odsWidth (mem w) in
       let ok := match r with inl _ => false | inr _ => true end in
       (World h (log w ++ [(ImportExtendedDataSquare odsWidth, ok)]), of_sum r).

(** [initializeWriter] *)
Definition initializeWriter (eds : ExtendedDataSquare) : M writingSession :=
  let store := @nil (Cid * list byte) in
  let shares := ExtractEDS eds in
  let shareCount := Z.of_nat (length shares) in
  if shareCount =? 0 then lift (Err ErrEmptySquare) else
  let odsWidth := odsWidthOf shareCount in
  do emit (NewNmtNodeAdder (innerNodeBatchSize shareCount odsWidth)) then
  let* r := wrapped "failure to recompute the extended data square"
              (import shares (wrap_uint odsWidth)) in
  do emit ComputeRowRoots then
  do wrapped "failure to commit the inner nodes to the dag" (invoke Commit) then
  ret {| ws_eds := r.1; ws_store := foldl store_put store r.2 |}.

(** The loop of [rootsToCids]: the first failure ends it. *)
Fixpoint mapE {A B} (f : A → error + B) (l : list A) : error + list B :=
  match l with
  | [] => inr []
  | a :: l' =>
      match f a with
      | inl e => inl e
      | inr b => match mapE f l' with
                 | inl e => inl e
                 | inr bs => inr (b :: bs)
                 end
      end
  end.

(** [rootsToCids] *)
Definition rootsToCids (eds : ExtendedDataSquare) : M (list Cid) :=
  let roots := RowRoots eds ++ ColRoots eds in
  wrapped "failure to get cid from root"
    (lift (of_sum (mapE CidFromNamespacedSha256 roots))).

(** [writeHeader] *)
Definition writeHeader (w : writingSession) : M unit :=
  let* rootCids := wrapped "failure getting root cids" (rootsToCids (ws_eds w)) in
  invoke (WriteHeader rootCids 1).

(** [writeQuadrants] *)
Definition writeQuadrants (w : writingSession) : M unit :=
  let* shares := quadrantOrder (ws_eds w) in
  forM_ (λ share,
    let* data := read share in
    let* cid := wrapped "failure to get cid from share"
                  (lift (of_sum (CidFromNamespacedSha256
                                   (Sha256Namespace8FlaggedLeaf data)))) in
    wrapped "failure to write share" (invoke (LdWrite LeafSection cid data)))
    shares.

(** [w.store.Get] *)
Definition getBlock (st : blockstore) (c : Cid) : M (list byte) :=
  do invoke (Get c) then
  match store_get st c with
  | Some d => ret d
  | None => lift (Err (External CacheError "blockstore: block not found"))
  end.

(** [writeProofs] *)
Definition writeProofs (w : writingSession) : M unit :=
  do wrapped "failure to get all keys from the blockstore" (invoke AllKeysChan) then
  let proofs := keysOrder (ws_store w).*1 in
  forM_ (λ proofCid,
    let* node := wrapped "failure to get proof from the blockstore"
                   (getBlock (ws_store w) proofCid) in
    let* cid := wrapped "failure to get cid"
                  (lift (of_sum (CidFromNamespacedSha256
                                   (Sha256Namespace8FlaggedInner node)))) in
    wrapped "failure to write proof to the car"
      (invoke (LdWrite ProofSection cid node)))
    proofs.

(** [WriteEDS] *)
Definition WriteEDS (eds : ExtendedDataSquare) : M unit :=
  let* writer := wrapped "share: failure creating eds writer"
                   (initializeWriter eds) in
  do wrapped "share: failure writing carv1 header" (writeHeader writer) then
  do wrapped "share: failure writing shares" (writeQuadrants writer) then
  do wrapped "share: failure writing proofs" (writeProofs writer) then
  ret tt.

(** ** The phases of the pipeline *)

Definition void {A} (r : result A) : result unit :=
  match r with
  | Ok _ => Ok tt
  | Err e => Err e
  | Panic p => Panic p
  end.

(** What a phase does when the phases before it have returned without
    error, and [None] when one of them has not. *)
Definition phase_run (eds : ExtendedDataSquare) (ph : phase)
  : world → option (world * result unit) :=
  λ w,
  match ph with
  | Reconstruction =>
      let '(w1, r1) := initializeWriter eds w in Some (w1, void r1)
  | Header =>
      match initializeWriter eds w with
      | (w1, Ok ws) => Some (writeHeader ws w1)
      | _ => None
      end
  | Leaves =>
      match initializeWriter eds w with
      | (w1, Ok ws) =>
          match writeHeader ws w1 with
          | (w2, Ok _) => Some (writeQuadrants ws w2)
          | _ => None
          end
      | _ => None
      end
  | Proofs =>
      match initializeWriter eds w with
      | (w1, Ok ws) =>
          match writeHeader ws w1 with
          | (w2, Ok _) =>
              match writeQuadrants ws w2 with
              | (w3, Ok _) => Some (writeProofs ws w3)
              | _ => None
              end
          | _ => None
          end
      | _ => None
      end
  end.

End Pipeline.

Notation "'let*' x ':=' m 'in' k" := (bind m (λ x, k))
  (at level 10, x name, m at level 100, k at level 200).
Notation "'do' m 'then' k" := (bind m (λ _, k))
  (at level 10, m at level 100, k at level 200).

(** ** Vocabulary of the statements *)

(** The cell of quadrant [q] at the quadrant-local coordinate [(i, j)] of a
    matrix of original width [k]. *)
Definition quadrant_cell (eds : ExtendedDataSquare) (k q i j : Z) : slice :=
  cell eds (i + q / 2 * k) (j + q mod 2 * k).

(** The tagged form of the bytes of a share, by quadrant. *)
Definition tagged (parity : list byte) (q : Z) (s : list byte) : list byte :=
  if q =? 0 then take 8 s ++ s else parity ++ s.

(** A share as a cell of the matrix holds it: at least the 8 bytes of a
    namespace, in a slice whose capacity leaves no room to append the share
    behind its first 8 bytes. *)
Definition share_slice (h : heap) (s : slice) : Prop :=
  valid h s ∧ (8 ≤ s_len s)%nat ∧ (s_cap s < 8 + s_len s)%nat.

Definition cells_ok (h : heap) (eds : ExtendedDataSquare) : Prop :=
  ∀ x y, 0 ≤ x < Width eds → 0 ≤ y < Width eds → share_slice h (cell eds x y).

(** The slot [q * k² + n] of [shares] holds, in the store [h], the tagged
    form of the cell it is meant for (as that cell read in [h0]). *)
Definition placed (parity : list byte) (eds : ExtendedDataSquare) (k : Z)
    (h0 h : heap) (shares : list slice) (q n : Z) : Prop :=
  ∃ sl, shares !! Z.to_nat (q * (k * k) + n) = Some sl ∧
        (s_arr sl < length h)%nat ∧
        rd h sl = tagged parity q (rd h0 (quadrant_cell eds k q (n / k) (n mod k))).

(** The cells of a matrix live outside the first [n] backing arrays. *)
Definition private (n : nat) (eds : ExtendedDataSquare) : Prop :=
  ∀ x y, (n ≤ s_arr (cell eds x y))%nat.

(** The state of [quadrantOrder] between two assignments, started in [w0]:
    the log is untouched, the store has only grown, and the slots that are
    [done] are placed. *)
Definition qo_inv {Cid : Type} (parity : list byte) (eds : ExtendedDataSquare)
    (k : Z) (w0 : @world Cid) (done : Z → Z → Prop)
    (shares : list slice) (w : @world Cid) : Prop :=
  log w = log w0 ∧ mem w0 `prefix_of` mem w ∧
  length shares = Z.to_nat (4 * (k * k)) ∧
  ∀ q n, 0 ≤ q < 4 → 0 ≤ n < k * k → done q n →
         placed parity eds k (mem w0) (mem w) shares q n.

(** Modelled from the spec: the matrix library ([rsmt2d]) is not part of the
    sources at hand. Reconstruction produces a private copy: it leaves the
    arrays that exist alone, and the cells of the matrix it returns live in
    arrays allocated by the call. *)
Definition private_copy {Cid : Type}
    (importSquare : list slice → Z → heap →
       heap * (error + ExtendedDataSquare * list (Cid * list byte))) : Prop :=
  ∀ shares k h,
    h `prefix_of` (importSquare shares k h).1 ∧
    ∀ eds' nodes, (importSquare shares k h).2 = inr (eds', nodes) →
                  private (length h) eds'.

(** The phase a logged call belongs to. *)
Definition phase_of_call {Cid : Type} (c : @call Cid) : phase :=
  match c with
  | NewNmtNodeAdder _ | ImportExtendedDataSquare _ | ComputeRowRoots | Commit =>
      Reconstruction
  | WriteHeader _ _ => Header
  | LdWrite LeafSection _ _ => Leaves
  | LdWrite ProofSection _ _ | AllKeysChan | Get _ => Proofs
  end.

(** Calls that write to the sink. *)
Definition is_sink_call {Cid : Type} (c : @call Cid) : bool :=
  match c with
  | WriteHeader _ _ | LdWrite _ _ _ => true
  | _ => false
  end.


(** Calls by which proof emission reads the cache or writes a proof. *)
Definition is_proof_call {Cid : Type} (c : @call Cid) : bool :=
  match phase_of_call c with
  | Proofs => true
  | _ => false
  end.

Definition succeeded {Cid : Type} (en : @entry Cid) : Prop := en.2 = true.

(** A stretch of log is settled for a result: every call in it succeeded,
    except that with an error or a panic the last one may have failed. *)
Definition settled {Cid : Type} {A} (d : list (@entry Cid)) (r : result A) : Prop :=
  match r with
  | Ok _ => Forall succeeded d
  | _ => ∃ d0 tl, d = d0 ++ tl ∧ Forall succeeded d0 ∧ (length tl ≤ 1)%nat
  end.

(** A computation only appends to the log, calls that satisfy [Q], settled
    for its result. *)
Definition appends {Cid : Type} {A} (Q : @call Cid → Prop) (m : @M Cid A) : Prop :=
  ∀ w w' r, m w = (w', r) →
    ∃ d, log w' = log w ++ d ∧ Forall (λ en, Q en.1) d ∧ settled d r.

(** The result of [WriteEDS] when phase [ph] ends the call with [r]. *)
Definition annotate {A} (ph : phase) (r : result A) : result unit :=
  match r with
  | Ok _ => Ok tt
  | Err e => Err (Errorf (annotation ph) e)
  | Panic p => Panic p
  end.

Definition is_ok {A} (r : result A) : bool :=
  match r with Ok _ => true | _ => false end.

(** The calls of a stretch of log that went to the sink. *)
Definition sink_calls {Cid : Type} (d : list (@entry Cid)) : list (@entry Cid) :=
  filter (λ en, is_sink_call en.1) d.

(** ** A small instance: a 2×2 matrix of 10-byte shares *)

Definition ex_share (t : byte) : list byte :=
  [t; x01; x02; x03; x04; x05; x06; x07; x08; x09].

(** The caller's store: one array per cell. *)
Definition ex_heap : heap :=
  [ex_share x0a; ex_share x14; ex_share x1e; ex_share x28].

(** A matrix of width 2 whose cell [(x, y)] is the whole of array
    [base + 2x + y], with [spare] bytes of capacity behind the share. *)
Definition ex_matrix (base spare : nat) : ExtendedDataSquare :=
  {| Width := 2;
     cell := λ x y, Slice (base + Z.to_nat (2 * x + y)) 0 10 (10 + spare);
     rowRoot := λ i, [x01; if i =? 0 then x00 else x01];
     colRoot := λ i, [x02; if i =? 0 then x00 else x01] |}.

Definition ex_eds : ExtendedDataSquare := ex_matrix 0 0.

Definition ex_empty : ExtendedDataSquare :=
  {| Width := 0; cell := λ _ _, nil_slice;
     rowRoot := λ _, []; colRoot := λ _, [] |}.

Definition ex_parity : list byte := replicate 8 xff.

Definition ex_nodes : list (list byte * list byte) :=
  [([x07], [x07; x07]); ([x08], [x08; x08])].

(** A reconstruction that copies every share into an array of its own, with
    [spare] bytes of capacity left behind it. *)
Definition ex_import (spare : nat) (shares : list slice) (odsWidth : Z) (h : heap)
  : heap * (error + ExtendedDataSquare * list (list byte * list byte)) :=
  (h ++ ((λ s, rd h s ++ replicate spare x00) <$> shares),
   inr (ex_matrix (length h) spare, ex_nodes)).

Definition ex_no_fault : list (@entry (list byte)) → @call (list byte) → option error :=
  λ _ _, None.

(** A sink that fails when the header is written. *)
Definition ex_header_fault
  : list (@entry (list byte)) → @call (list byte) → option error :=
  λ _ c, match c with
         | WriteHeader _ _ => Some (External IOError "short write")
         | _ => None
         end.

Definition ex_world : @world (list byte) := World ex_heap [].

(** Identifiers are the hash bytes themselves. *)
Definition ex_cid : list byte → error + list byte := inr.

Definition ex_WriteEDS (spare : nat)
    (fault : list (@entry (list byte)) → @call (list byte) → option error)
  : @M (list byte) unit :=
  WriteEDS ex_parity ex_cid id id (ex_import spare) fault id ex_eds.

Definition ex_session : @writingSession (list byte) :=
  {| ws_eds := ex_matrix 4 0; ws_store := ex_nodes |}.

(** ** Vocabulary of the further properties *)

(** What a run that cannot fail with a Go error came to: a value and a world
    that satisfy [Post], or a panic that satisfies [Bad]. *)
Definition outcome {Cid : Type} {A} (x : @world Cid * result A)
    (Post : A → @world Cid → Prop) (Bad : panic → Prop) : Prop :=
  match x.2 with
  | Ok a => Post a x.1
  | Err _ => False
  | Panic p => Bad p
  end.

(** The result slice of [quadrantOrder] has one slot per cell of the matrix,
    and the slots behind the four quadrants are as [make] left them. *)
Definition qo_sized (eds : ExtendedDataSquare) (shares : list slice) : Prop :=
  Z.of_nat (length shares) = Width eds * Width eds ∧
  ∀ n, 4 * (Width eds / 2 * (Width eds / 2)) ≤ n < Width eds * Width eds →
       shares !! Z.to_nat n = Some nil_slice.

(** The cells of quadrant 0 that are [done] have room for a namespace. *)
Definition qo_roomy (eds : ExtendedDataSquare) (done : Z → Z → Prop) : Prop :=
  ∀ i j, 0 ≤ i < Width eds / 2 → 0 ≤ j < Width eds / 2 → done i j →
         (8 ≤ s_cap (cell eds i j))%nat.

(** A cell of quadrant 0 whose capacity is below the 8 bytes of a namespace. *)
Definition qo_short (eds : ExtendedDataSquare) : Prop :=
  ∃ i j, (0 ≤ i < Width eds / 2) ∧ (0 ≤ j < Width eds / 2) ∧
         (s_cap (cell eds i j) < 8)%nat.

(** The log entry of a leaf written with success: the block of the tagged
    share, under the identifier of its leaf hash. *)
Definition leaf_entry {Cid : Type} (cidOf : list byte → error + Cid)
    (leafHash : list byte → list byte) (h : heap)
    (share : slice) (en : @entry Cid) : Prop :=
  ∃ c, cidOf (leafHash (rd h share)) = inr c ∧
       en = (LdWrite LeafSection c (rd h share), true).

(** The log entries of a proof written with success: the read of the block
    stored under the key, then its write under the identifier of its
    inner-node hash. *)
Definition proof_block {Cid : Type} `{EqDecision Cid}
    (cidOf : list byte → error + Cid) (innerHash : list byte → list byte)
    (st : list (Cid * list byte)) (key : Cid) (blk : list (@entry Cid)) : Prop :=
  ∃ d c, store_get st key = Some d ∧ cidOf (innerHash d) = inr c ∧
         blk = [(Get key, true); (LdWrite ProofSection c d, true)].

(** ** Further small instances *)

(** A share of 10 bytes at the head of an array of 20. *)
Definition ex_roomy_heap : heap := [ex_share x0a ++ replicate 10 x00].

Definition ex_roomy_share : slice := Slice 0 0 10 20.

(** A matrix of width 3 over the cells of the 2×2 instance: its original
    width is 1, its last row and column lie outside the four quadrants. *)
Definition ex_odd : ExtendedDataSquare :=
  {| Width := 3; cell := cell ex_eds;
     rowRoot := rowRoot ex_eds; colRoot := colRoot ex_eds |}.

(** A matrix of width 2 whose cells hold 4 bytes, less than a namespace. *)
Definition ex_short : ExtendedDataSquare :=
  {| Width := 2;
     cell := λ x y, Slice (Z.to_nat (2 * x + y)) 0 4 4;
     rowRoot := rowRoot ex_eds; colRoot := colRoot ex_eds |}.

(** A reconstruction that hands out the matrix of short cells. *)
Definition ex_import_short (shares : list slice) (odsWidth : Z) (h : heap)
  : heap * (error + ExtendedDataSquare * list (list byte * list byte)) :=
  (h, inr (ex_short, ex_nodes)).

(** An identifier derivation that rejects the root of column 0. *)
Definition ex_cid_picky (b : list byte) : error + list byte :=
  if decide (b = [x02; x00])
  then inl (External IdentifierDerivationError "bad digest")
  else inr b.

(** A sink that fails at the call made when the log holds two entries. *)
Definition ex_leaf_fault
  : list (@entry (list byte)) → @call (list byte) → option error :=
  λ l c, if decide (length l = 2%nat)
         then Some (External IOError "short write") else None.

(** The store after the reconstruction of the 2×2 instance, with no call
    logged yet. *)
Definition ex_session_world : @world (list byte) := World (ex_heap ++ ex_heap) [].

(** * Properties *)

(** ** Machine arithmetic within range *)

Lemma wrap_uint_small (z : Z) : 0 ≤ z < 2 ^ 64 → wrap_uint z = z.
Proof. intros Hz. unfold wrap_uint. by apply Z.mod_small. Qed.

Lemma wrap_int_small (z : Z) : - 2 ^ 63 ≤ z < 2 ^ 63 → wrap_int z = z.
Proof.
  intros Hz. unfold wrap_int.
  rewrite Z.mod_small; lia.
Qed.

(** ** Floating point: the width of an exactly held even square *)

Lemma digits2_pos_size (p : positive) : digits2_pos p = Pos.size p.
Proof. induction p; simpl; congruence. Qed.

Lemma Zdigits2_bounds (x : Z) :
  0 < x → 2 ^ (Zdigits2 x - 1) ≤ x ∧ x < 2 ^ (Zdigits2 x).
Proof.
  destruct x as [|p|p]; try lia. intros _. simpl.
  rewrite digits2_pos_size.
  pose proof (Pos.size_gt p) as Hgt. pose proof (Pos.size_le p) as Hle.
  apply Pos2Z.pos_lt_pos in Hgt. apply Pos2Z.pos_le_pos in Hle.
  rewrite Pos2Z.inj_pow in Hgt, Hle.
  split; [|done].
  replace (Z.pos (Pos.size p)) with (Z.pos (Pos.size p) - 1 + 1) in Hle by lia.
  rewrite Z.pow_add_r in Hle by lia. change (Z.pos p~0) with (2 * Z.pos p) in Hle.
  lia.
Qed.

Lemma Zdigits2_unique (x d : Z) :
  0 < x → 2 ^ (d - 1) ≤ x ∧ x < 2 ^ d → Zdigits2 x = d.
Proof.
  intros Hx Hd. pose proof (Zdigits2_bounds x Hx) as HD.
  assert (0 < Zdigits2 x) by (destruct x; simpl in *; lia).
  assert (0 < d).
  { destruct (Z.lt_ge_cases 0 d); [done|].
    assert (2 ^ d ≤ 2 ^ 0) by (apply Z.pow_le_mono_r; lia). simpl in *. lia. }
  destruct (Z.lt_trichotomy (Zdigits2 x) d) as [Hlt|[Heq|Hgt]]; [|done|].
  - assert (2 ^ Zdigits2 x ≤ 2 ^ (d - 1)) by (apply Z.pow_le_mono_r; lia). lia.
  - assert (2 ^ d ≤ 2 ^ (Zdigits2 x - 1)) by (apply Z.pow_le_mono_r; lia). lia.
Qed.

Lemma iter_pos_nat {A} (f : A → A) (p : positive) (x : A) :
  SpecFloat.iter_pos f p x = Nat.iter (Pos.to_nat p) f x.
Proof.
  revert x. induction p as [p IH|p IH|]; intros x; cbn [SpecFloat.iter_pos].
  - rewrite !IH. rewrite Pos2Nat.inj_xI.
    replace (S (2 * Pos.to_nat p))%nat with (Pos.to_nat p + (Pos.to_nat p + 1))%nat by lia.
    rewrite !Nat.iter_add. simpl. done.
  - rewrite !IH. rewrite Pos2Nat.inj_xO.
    replace (2 * Pos.to_nat p)%nat with (Pos.to_nat p + Pos.to_nat p)%nat by lia.
    by rewrite Nat.iter_add.
  - done.
Qed.

Lemma shr_1_exact (z : Z) :
  0 < z →
  shr_1 (Build_shr_record (2 * z) false false) = Build_shr_record z false false.
Proof. destruct z; try lia. done. Qed.

Lemma shr_iter_exact (n : nat) (z : Z) :
  0 < z →
  Nat.iter n shr_1 (Build_shr_record (z * 2 ^ Z.of_nat n) false false)
  = Build_shr_record z false false.
Proof.
  revert z. induction n as [|n IH]; intros z Hz.
  - simpl. by rewrite Z.mul_1_r.
  - rewrite Nat2Z.inj_succ, Z.pow_succ_r by lia.
    replace (z * (2 * 2 ^ Z.of_nat n)) with ((2 * z) * 2 ^ Z.of_nat n) by lia.
    simpl. rewrite IH by lia. by apply shr_1_exact.
Qed.

Lemma shr_fexp_noshift (m : positive) (e : Z) :
  fexp prec emax (Zdigits2 (Z.pos m) + e) ≤ e →
  shr_fexp prec emax (Z.pos m) e loc_Exact
  = (Build_shr_record (Z.pos m) false false, e).
Proof.
  intros Hfexp. unfold shr_fexp, shr.
  destruct (fexp prec emax (Zdigits2 (Z.pos m) + e) - e) eqn:Hs; (done || lia).
Qed.

(** Rounding a value that needs no rounding. *)
Lemma round_aux_canonical (m : positive) (e : Z) :
  fexp prec emax (Zdigits2 (Z.pos m) + e) ≤ e → e ≤ emax - prec →
  binary_round_aux prec emax false (Z.pos m) e loc_Exact = S754_finite false m e.
Proof.
  intros Hfexp He. unfold binary_round_aux.
  rewrite shr_fexp_noshift by done.
  cbn [shr_m loc_of_shr_record round_nearest_even].
  rewrite shr_fexp_noshift by done. cbn [shr_m].
  apply Z.leb_le in He. by rewrite He.
Qed.

Lemma Zdigits2_shift (m : positive) (n : Z) :
  0 ≤ n → Zdigits2 (Z.pos m * 2 ^ n) = Zdigits2 (Z.pos m) + n.
Proof.
  intros Hn. apply Zdigits2_unique; [lia|].
  pose proof (Zdigits2_bounds (Z.pos m) ltac:(lia)) as [Hlo Hhi].
  replace (Zdigits2 (Z.pos m) + n - 1) with (Zdigits2 (Z.pos m) - 1 + n) by lia.
  assert (0 < Zdigits2 (Z.pos m)) by (simpl; lia).
  rewrite !Z.pow_add_r by lia. nia.
Qed.

Lemma round_aux_shift (m : positive) (n e : Z) :
  0 < n →
  fexp prec emax (Zdigits2 (Z.pos m) + n + e) = e + n → e + n ≤ emax - prec →
  binary_round_aux prec emax false (Z.pos m * 2 ^ n) e loc_Exact
  = S754_finite false m (e + n).
Proof.
  intros Hn Hfexp He. unfold binary_round_aux.
  assert (Hshr : shr_fexp prec emax (Z.pos m * 2 ^ n) e loc_Exact
                 = (Build_shr_record (Z.pos m) false false, e + n)).
  { unfold shr_fexp, shr. rewrite Zdigits2_shift by lia. rewrite Hfexp.
    replace (e + n - e) with n by lia.
    destruct n as [|p|p]; try lia.
    rewrite iter_pos_nat. cbn [shr_record_of_loc].
    replace (Z.pos p) with (Z.of_nat (Pos.to_nat p)) at 1 by lia.
    by rewrite shr_iter_exact by lia. }
  rewrite Hshr. cbn [shr_m loc_of_shr_record round_nearest_even].
  rewrite shr_fexp_noshift.
  - cbn [shr_m]. apply Z.leb_le in He. by rewrite He.
  - replace (Zdigits2 (Z.pos m) + (e + n)) with (Zdigits2 (Z.pos m) + n + e) by lia.
    lia.
Qed.

Lemma fexp_normal (d : Z) : -1021 ≤ d → fexp prec emax d = d - 53.
Proof. intros Hd. unfold fexp, emin, prec, emax. lia. Qed.

Lemma iter_xO (p d : positive) : Z.pos (Pos.iter xO p d) = Z.pos p * 2 ^ Z.pos d.
Proof.
  induction d as [|d IH] using Pos.peano_ind.
  - simpl. lia.
  - rewrite Pos.iter_succ, Pos2Z.inj_succ, Z.pow_succ_r by lia.
    rewrite Pos2Z.inj_xO, IH. lia.
Qed.

(** A positive integer that a float64 holds exactly converts to the float
    with a 53-bit mantissa that denotes it. *)
Lemma float64_of_int_exact (N : Z) :
  0 < N → N ≤ max_int → float64_exact N →
  ∃ m, float64_of_int N = S754_finite false m (Zdigits2 N - 53) ∧
       Zdigits2 (Z.pos m) = 53 ∧
       ∀ s, 0 ≤ s → Zdigits2 N - 53 ≤ s →
            Z.pos m * 2 ^ s = N * 2 ^ (s - (Zdigits2 N - 53)).
Proof.
  intros HN Hmax (m0 & e0 & HNeq & He0 & Hm0).
  destruct N as [|p|p]; try lia. clear HN.
  pose proof (Zdigits2_bounds (Z.pos p) ltac:(lia)) as [Hlo Hhi].
  set (D := Zdigits2 (Z.pos p)) in *.
  assert (HD : 0 < D) by (unfold D; simpl; lia).
  assert (HD63 : D ≤ 63).
  { destruct (Z.le_gt_cases D 63) as [|Hgt]; [done|].
    assert (2 ^ 63 ≤ 2 ^ (D - 1)) by (apply Z.pow_le_mono_r; lia).
    unfold max_int in Hmax. lia. }
  unfold float64_of_int, binary_normalize, binary_round, shl_align.
  change (Z.pos (digits2_pos p)) with D. rewrite Z.add_0_r.
  rewrite fexp_normal by lia. rewrite Z.sub_0_r.
  destruct (D - 53) as [|n|n] eqn:Hn.
  - exists p. split; [|split].
    + apply round_aux_canonical; [|unfold emax, prec; lia].
      change (Zdigits2 (Z.pos p)) with D. rewrite Z.add_0_r, fexp_normal by lia. lia.
    + fold D. lia.
    + intros s Hs _. by rewrite Z.sub_0_r.
  - (* more than 53 bits: the low bits are zero *)
    assert (He : Z.pos n ≤ e0).
    { destruct (Z.le_gt_cases (Z.pos n) e0) as [|Hgt]; [done|].
      assert (2 ^ e0 * 2 ^ 53 ≤ 2 ^ (D - 1)).
      { rewrite <- Z.pow_add_r by lia. apply Z.pow_le_mono_r; lia. }
      nia. }
    assert (HM : 0 < m0 * 2 ^ (e0 - Z.pos n)).
    { assert (0 < 2 ^ (e0 - Z.pos n)) by (apply Z.pow_pos_nonneg; lia).
      assert (0 < 2 ^ e0) by (apply Z.pow_pos_nonneg; lia). nia. }
    destruct (m0 * 2 ^ (e0 - Z.pos n)) as [|M|M] eqn:HMeq; try lia.
    assert (Hp : Z.pos p = Z.pos M * 2 ^ Z.pos n).
    { rewrite <- HMeq, <- Z.mul_assoc, <- Z.pow_add_r by lia.
      by replace (e0 - Z.pos n + Z.pos n) with e0 by lia. }
    assert (HdM : Zdigits2 (Z.pos M) = 53).
    { pose proof (Zdigits2_shift M (Z.pos n) ltac:(lia)) as Hsh.
      rewrite <- Hp in Hsh. fold D in Hsh. lia. }
    exists M. split; [|split; [done|]].
    + rewrite Hp. rewrite round_aux_shift; try done.
      * rewrite HdM, fexp_normal by lia. lia.
      * unfold emax, prec. lia.
    + intros s Hs Hle. rewrite Hp, <- Z.mul_assoc, <- Z.pow_add_r by lia.
      by replace (Z.pos n + (s - Z.pos n)) with s by lia.
  - exists (Pos.iter xO p n).
    assert (HdM : Zdigits2 (Z.pos (Pos.iter xO p n)) = 53).
    { rewrite iter_xO, Zdigits2_shift by lia. fold D. lia. }
    split; [|split; [done|]].
    + apply round_aux_canonical; [|unfold emax, prec; lia].
      rewrite HdM, fexp_normal by lia. lia.
    + intros s Hs _. rewrite iter_xO, <- Z.mul_assoc, <- Z.pow_add_r by lia.
      by replace (Z.pos n + s) with (s - Z.neg n) by lia.
Qed.

Lemma sqrtrem_square (a : Z) : 0 ≤ a → Z.sqrtrem (a * a) = (a, 0).
Proof.
  intros Ha. pose proof (Z.sqrtrem_spec (a * a) ltac:(nia)) as Hspec.
  pose proof (Z.sqrtrem_sqrt (a * a)) as Hfst.
  destruct (Z.sqrtrem (a * a)) as [s r]. simpl in Hfst.
  rewrite Z.sqrt_square in Hfst by done. subst s.
  f_equal. lia.
Qed.

Lemma div_eucl_div_mod (a b : Z) : Z.div_eucl a b = (a / b, a mod b).
Proof. unfold Z.div, Z.modulo. by destruct (Z.div_eucl a b). Qed.

(** The bit lengths of an even number [2k] and of its square. *)
Lemma digits_square (k : Z) :
  1 ≤ k → (2 * k) * (2 * k) ≤ max_int →
  2 ≤ Zdigits2 (2 * k) ≤ 32 ∧
  (Zdigits2 ((2 * k) * (2 * k)) = 2 * Zdigits2 (2 * k) - 1 ∨
   Zdigits2 ((2 * k) * (2 * k)) = 2 * Zdigits2 (2 * k)).
Proof.
  intros Hk Hmax. unfold max_int in Hmax.
  pose proof (Zdigits2_bounds (2 * k) ltac:(lia)) as [Hlo Hhi].
  pose proof (Zdigits2_bounds ((2 * k) * (2 * k)) ltac:(nia)) as [HLo HHi].
  set (t := Zdigits2 (2 * k)) in *. set (D := Zdigits2 ((2 * k) * (2 * k))) in *.
  assert (Ht1 : 0 < t).
  { unfold t. destruct (2 * k) eqn:E; simpl; lia. }
  assert (Ht2 : 2 ≤ t).
  { destruct (Z.le_gt_cases 2 t) as [|Hlt]; [done|].
    assert (t = 1) as Heq by lia. rewrite Heq in Hhi. simpl in Hhi. lia. }
  assert (Hsq_lo : 2 ^ (2 * t - 2) ≤ (2 * k) * (2 * k)).
  { replace (2 * t - 2) with ((t - 1) + (t - 1)) by lia.
    rewrite Z.pow_add_r by lia.
    assert (0 < 2 ^ (t - 1)) by (apply Z.pow_pos_nonneg; lia). nia. }
  assert (Hsq_hi : (2 * k) * (2 * k) < 2 ^ (2 * t)).
  { replace (2 * t) with (t + t) by lia. rewrite Z.pow_add_r by lia. nia. }
  assert (Ht32 : t ≤ 32).
  { destruct (Z.le_gt_cases t 32) as [|Hgt]; [done|].
    assert (2 ^ 64 ≤ 2 ^ (2 * t - 2)) by (apply Z.pow_le_mono_r; lia). lia. }
  split; [lia|].
  assert (HD1 : 0 < D).
  { unfold D. destruct (2 * k * (2 * k)) eqn:E; simpl; nia. }
  assert (2 * t - 1 ≤ D).
  { destruct (Z.le_gt_cases (2 * t - 1) D) as [|Hgt]; [done|].
    assert (2 ^ D ≤ 2 ^ (2 * t - 2)) by (apply Z.pow_le_mono_r; lia). lia. }
  assert (D ≤ 2 * t).
  { destruct (Z.le_gt_cases D (2 * t)) as [|Hgt]; [done|].
    assert (2 ^ (2 * t) ≤ 2 ^ (D - 1)) by (apply Z.pow_le_mono_r; lia). lia. }
  lia.
Qed.

(** The square root of the float that denotes [(2k)²] is the float that
    denotes [2k]. *)
Lemma sqrt_exact (k : Z) (m : positive) :
  1 ≤ k → (2 * k) * (2 * k) ≤ max_int →
  Zdigits2 (Z.pos m) = 53 →
  (∀ s, 0 ≤ s → Zdigits2 ((2 * k) * (2 * k)) - 53 ≤ s →
        Z.pos m * 2 ^ s
        = (2 * k) * (2 * k) * 2 ^ (s - (Zdigits2 ((2 * k) * (2 * k)) - 53))) →
  ∃ q, math_Sqrt (S754_finite false m (Zdigits2 ((2 * k) * (2 * k)) - 53))
       = S754_finite false q (Zdigits2 (2 * k) - 53) ∧
       Z.pos q = 2 * k * 2 ^ (53 - Zdigits2 (2 * k)).
Proof.
  intros Hk Hmax Hdm Hval.
  destruct (digits_square k Hk Hmax) as [Ht HD].
  set (t := Zdigits2 (2 * k)) in *. set (D := Zdigits2 ((2 * k) * (2 * k))) in *.
  assert (HQ : 0 < 2 * k * 2 ^ (53 - t)).
  { assert (0 < 2 ^ (53 - t)) by (apply Z.pow_pos_nonneg; lia). nia. }
  destruct (2 * k * 2 ^ (53 - t)) as [|q|q] eqn:HQeq; try lia.
  exists q. split; [|done].
  assert (Hcore : SFsqrt_core_binary prec emax (Z.pos m) (D - 53)
                  = (Z.pos q, t - 53, loc_Exact)).
  { unfold SFsqrt_core_binary. rewrite Hdm.
    assert (He' : Z.min (fexp prec emax (Z.div2 (53 + (D - 53) + 1))) (Z.div2 (D - 53))
                  = t - 53).
    { rewrite !Z.div2_div.
      assert ((53 + (D - 53) + 1) / 2 = t) as ->.
      { symmetry. destruct HD as [HD|HD].
        - apply (Z.div_unique _ _ _ 0); lia.
        - apply (Z.div_unique _ _ _ 1); lia. }
      rewrite fexp_normal by lia.
      assert (t - 27 ≤ (D - 53) / 2) by (apply Z.div_le_lower_bound; lia).
      lia. }
    rewrite He'.
    assert (Hs : D - 53 - 2 * (t - 53) = D - 2 * t + 53) by lia.
    rewrite Hs.
    destruct (D - 2 * t + 53) as [|s|s] eqn:Hseq; try lia.
    rewrite Z.shiftl_mul_pow2 by lia.
    rewrite Hval by lia.
    replace (Z.pos s - (D - 53)) with ((53 - t) + (53 - t)) by lia.
    rewrite Z.pow_add_r by lia.
    replace (2 * k * (2 * k) * (2 ^ (53 - t) * 2 ^ (53 - t)))
      with ((2 * k * 2 ^ (53 - t)) * (2 * k * 2 ^ (53 - t))) by lia.
    rewrite HQeq. rewrite sqrtrem_square by lia. done. }
  unfold math_Sqrt, SFsqrt. rewrite Hcore.
  apply round_aux_canonical; [|unfold emax, prec; lia].
  assert (Hdq : Zdigits2 (Z.pos q) = 53).
  { rewrite <- HQeq.
    destruct (2 * k) as [|p|p] eqn:Hp; try lia.
    rewrite Zdigits2_shift by lia. fold t. lia. }
  rewrite Hdq, fexp_normal by lia. lia.
Qed.

Lemma float64_two : float64_of_int 2 = S754_finite false 4503599627370496 (-51).
Proof. reflexivity. Qed.

(** Halving a float with a 53-bit mantissa, away from the subnormal range. *)
Lemma halve_exact (q : positive) (e : Z) :
  Zdigits2 (Z.pos q) = 53 → -1000 ≤ e ≤ 900 →
  float64_div (S754_finite false q e) (float64_of_int 2)
  = S754_finite false q (e - 1).
Proof.
  intros Hdq He. rewrite float64_two. unfold float64_div, SFdiv.
  assert (Hcore : SFdiv_core_binary prec emax (Z.pos q) e 4503599627370496 (-51)
                  = (Z.pos q * 2 ^ 1, e - 2, loc_Exact)).
  { unfold SFdiv_core_binary. rewrite Hdq.
    change (Zdigits2 4503599627370496) with 53.
    replace (53 + e - (53 + -51)) with (e + 51) by lia.
    rewrite fexp_normal by lia.
    replace (Z.min (e + 51 - 53) (e - -51)) with (e - 2) by lia.
    replace (e - -51 - (e - 2)) with 53 by lia.
    rewrite Z.shiftl_mul_pow2 by lia.
    rewrite div_eucl_div_mod.
    replace (Z.pos q * 2 ^ 53) with ((Z.pos q * 2 ^ 1) * 4503599627370496)
      by (change (2 ^ 53) with (2 ^ 1 * 4503599627370496); lia).
    rewrite Z.div_mul, Z.mod_mul by lia. done. }
  rewrite Hcore. simpl xorb.
  replace (e - 1) with (e - 2 + 1) by lia.
  apply round_aux_shift; [lia| |unfold emax, prec; lia].
  rewrite Hdq, fexp_normal by lia. lia.
Qed.

Lemma odsWidthOf_square (k N : Z) :
  1 ≤ k → N = (2 * k) ^ 2 → N ≤ max_int → float64_exact N →
  odsWidthOf N = k.
Proof.
  intros Hk HN Hmax Hex. rewrite Z.pow_2_r in HN. subst N.
  assert (HN0 : 0 < 2 * k * (2 * k)) by nia.
  destruct (float64_of_int_exact _ HN0 Hmax Hex) as (m & Hconv & Hdm & Hval).
  destruct (sqrt_exact k m Hk Hmax Hdm Hval) as (q & Hsqrt & Hq).
  destruct (digits_square k Hk Hmax) as [Ht _].
  set (t := Zdigits2 (2 * k)) in *.
  assert (Hdq : Zdigits2 (Z.pos q) = 53).
  { rewrite Hq. destruct (2 * k) as [|p|p] eqn:Hp; try lia.
    rewrite Zdigits2_shift by lia. fold t. lia. }
  unfold odsWidthOf. rewrite Hconv, Hsqrt, halve_exact by (done || lia).
  unfold int_of_float64.
  replace (0 <=? t - 53 - 1) with false by (symmetry; apply Z.leb_gt; lia).
  replace (- (t - 53 - 1)) with (1 + (53 - t)) by lia.
  rewrite Hq, Z.pow_add_r by lia.
  replace (2 * k * 2 ^ (53 - t)) with (k * (2 ^ 1 * 2 ^ (53 - t))) by lia.
  assert (0 < 2 ^ (53 - t)) by (apply Z.pow_pos_nonneg; lia).
  rewrite Z.div_mul by lia.
  unfold max_int in *.
  replace ((- 2 ^ 63 <=? k) && (k <=? 2 ^ 63 - 1)) with true; [done|].
  symmetry. apply andb_true_iff. split; apply Z.leb_le; nia.
Qed.

(** C10. For a share count [N = (2k)²] with [k ≥ 1] that is an [int] and that
    a float64 holds exactly, [int(math.Sqrt(float64(N)) / 2)] is [k]. *)
Theorem odsWidthOf_exact (k N : Z) :
  1 ≤ k → N = (2 * k) ^ 2 → N ≤ max_int → float64_exact N →
  odsWidthOf N = k.
Proof. apply odsWidthOf_square. Qed.

(** ** Reading slices *)

Lemma rd_prefix (h h' : heap) (s : slice) :
  h `prefix_of` h' → (s_arr s < length h)%nat → rd h' s = rd h s.
Proof.
  intros Hp Hlt. unfold rd.
  by rewrite <- (prefix_lookup_lt h h' (s_arr s) Hlt Hp).
Qed.

Lemma valid_arr (h : heap) (s : slice) : valid h s → (s_arr s < length h)%nat.
Proof. intros (a & Ha & _). by eapply lookup_lt_Some. Qed.

Lemma valid_prefix (h h' : heap) (s : slice) :
  h `prefix_of` h' → valid h s → valid h' s.
Proof.
  intros Hp (a & Ha & Hb). exists a. split; [|done].
  by eapply prefix_lookup_Some.
Qed.

Lemma rd_length (h : heap) (s : slice) : valid h s → length (rd h s) = s_len s.
Proof.
  intros (a & Ha & Hoff & Hlen). unfold rd. rewrite Ha. simpl.
  rewrite length_take, length_drop. lia.
Qed.

Lemma rd_fresh (h : heap) (a : list byte) :
  rd (h ++ [a]) (Slice (length h) 0 (length a) (length a)) = a.
Proof.
  unfold rd. simpl. rewrite lookup_app_r by lia.
  rewrite Nat.sub_diag. simpl. rewrite drop_0. by rewrite firstn_all.
Qed.

(** ** [append] *)

Lemma blit_length (a : list byte) (pos : nat) (data : list byte) :
  (pos + length data ≤ length a)%nat → length (blit a pos data) = length a.
Proof.
  intros Hle. unfold blit.
  rewrite !length_app, length_take, length_drop. lia.
Qed.

Lemma blit_read (a : list byte) (off len : nat) (data : list byte) :
  (off + len ≤ length a)%nat →
  take (len + length data) (drop off (blit a (off + len) data))
  = take len (drop off a) ++ data.
Proof.
  intros Hle. unfold blit.
  rewrite drop_app_le by (rewrite length_take; lia).
  rewrite <- take_drop_commute.
  rewrite app_assoc.
  rewrite take_app_le by (rewrite length_app, length_take, length_drop; lia).
  rewrite take_ge; [done|].
  rewrite length_app, length_take, length_drop. lia.
Qed.

Lemma go_append_read (h : heap) (dst : slice) (data : list byte) :
  valid h dst →
  rd (go_append h dst data).1 (go_append h dst data).2 = rd h dst ++ data.
Proof.
  intros (a & Ha & Hoff & Hlen). unfold go_append.
  case_decide as Hroom; simpl.
  - unfold rd at 1. simpl. rewrite list_lookup_alter_eq, Ha. simpl.
    rewrite blit_read by lia. unfold rd. by rewrite Ha.
  - assert (Hn : (s_len dst + length data)%nat = length (rd h dst ++ data)).
    { rewrite length_app, rd_length; [done|]. by exists a. }
    rewrite Hn. apply rd_fresh.
Qed.

Lemma go_append_const_read (h : heap) (const data : list byte) :
  rd (go_append_const h const data).1 (go_append_const h const data).2
  = const ++ data.
Proof.
  unfold go_append_const. simpl. rewrite <- length_app. apply rd_fresh.
Qed.

Lemma reslice_read (h : heap) (s : slice) (n : nat) :
  valid h s → (n ≤ s_len s)%nat →
  ∃ s', reslice s n = Ok s' ∧ valid h s' ∧ rd h s' = take n (rd h s) ∧
        s_arr s' = s_arr s ∧ s_cap s' = s_cap s ∧ s_len s' = n.
Proof.
  intros (a & Ha & Hoff & Hlen) Hn. unfold reslice.
  rewrite decide_True by lia. eexists. split; [done|]. simpl.
  split; [exists a; simpl; split; [done|lia]|].
  split; [|done]. unfold rd. simpl.
  by rewrite take_take, Nat.min_l.
Qed.

Section Properties.

Context {Cid : Type} `{EqDecision Cid}.
Variable ParitySharesNamespaceID : list byte.
Variable CidFromNamespacedSha256 : list byte → error + Cid.
Variable Sha256Namespace8FlaggedLeaf : list byte → list byte.
Variable Sha256Namespace8FlaggedInner : list byte → list byte.
Variable importSquare :
  list slice → Z → heap → heap * (error + ExtendedDataSquare * list (Cid * list byte)).
Variable fault : list (@entry Cid) → @call Cid → option error.
Variable keysOrder : list Cid → list Cid.

Local Abbreviation call := (@call Cid).
Local Abbreviation entry := (@entry Cid).
Local Abbreviation world := (@world Cid).
Local Abbreviation M := (@M Cid).
Local Abbreviation prependNamespace :=
  (prependNamespace (Cid:=Cid) ParitySharesNamespaceID).
Local Abbreviation getQuadrantCells := (getQuadrantCells (Cid:=Cid)).
Local Abbreviation quadrantOrder :=
  (quadrantOrder (Cid:=Cid) ParitySharesNamespaceID).
Local Abbreviation initializeWriter := (initializeWriter importSquare fault).
Local Abbreviation rootsToCids := (rootsToCids CidFromNamespacedSha256).
Local Abbreviation writeHeader := (writeHeader CidFromNamespacedSha256 fault).
Local Abbreviation writeQuadrants :=
  (writeQuadrants ParitySharesNamespaceID CidFromNamespacedSha256
     Sha256Namespace8FlaggedLeaf fault).
Local Abbreviation writeProofs :=
  (writeProofs CidFromNamespacedSha256 Sha256Namespace8FlaggedInner fault
     keysOrder).
Local Abbreviation phase_run :=
  (phase_run ParitySharesNamespaceID CidFromNamespacedSha256
     Sha256Namespace8FlaggedLeaf Sha256Namespace8FlaggedInner importSquare
     fault keysOrder).
Local Abbreviation WriteEDS :=
  (WriteEDS ParitySharesNamespaceID CidFromNamespacedSha256
     Sha256Namespace8FlaggedLeaf Sha256Namespace8FlaggedInner importSquare
     fault keysOrder).

(** ** Namespace tagging *)

Lemma prependNamespace_0 (share : slice) (w : world) :
  valid (mem w) share → (8 ≤ s_len share)%nat →
  ∃ w' r, prependNamespace 0 share w = (w', Ok r) ∧
          log w' = log w ∧
          rd (mem w') r = take 8 (rd (mem w) share) ++ rd (mem w) share.
Proof.
  intros Hv Hlen.
  destruct (reslice_read _ _ 8%nat Hv Hlen) as (ns & Hns & Hvns & Hrd & _).
  unfold prependNamespace, bind, lift. simpl. rewrite Hns.
  pose proof (go_append_read (mem w) ns (rd (mem w) share) Hvns) as Happ.
  destruct (go_append (mem w) ns (rd (mem w) share)) as [h r].
  do 2 eexists. split; [done|]. simpl in *. split; [done|].
  by rewrite Happ, Hrd.
Qed.

Lemma prependNamespace_parity (q : Z) (share : slice) (w : world) :
  1 ≤ q ≤ 3 →
  ∃ w' r, prependNamespace q share w = (w', Ok r) ∧
          log w' = log w ∧
          mem w' = mem w ++ [ParitySharesNamespaceID ++ rd (mem w) share] ∧
          s_arr r = length (mem w) ∧
          rd (mem w') r = ParitySharesNamespaceID ++ rd (mem w) share.
Proof.
  intros Hq. unfold prependNamespace.
  destruct (q =? 0) eqn:H0; [lia|].
  replace ((q =? 1) || (q =? 2) || (q =? 3)) with true
    by (symmetry; apply orb_true_iff; rewrite orb_true_iff; lia).
  pose proof (go_append_const_read (mem w) ParitySharesNamespaceID
                (rd (mem w) share)) as Happ.
  do 2 eexists. split; [done|]. simpl. split; [done|]. split; [done|].
  split; [done|]. exact Happ.
Qed.

(** C2. The tagged form of a share is, for quadrant 0, its first 8 bytes
    followed by the whole share (the share holding at least the 8 bytes of its
    namespace) and, for quadrants 1, 2 and 3, the parity namespace followed
    by the whole share. *)
Theorem prependNamespace_tagged (share : slice) (w : world) :
  (valid (mem w) share → (8 ≤ s_len share)%nat →
   ∃ w' r, prependNamespace 0 share w = (w', Ok r) ∧
           rd (mem w') r = take 8 (rd (mem w) share) ++ rd (mem w) share) ∧
  (∀ q, q = 1 ∨ q = 2 ∨ q = 3 →
     ∃ w' r, prependNamespace q share w = (w', Ok r) ∧
             rd (mem w') r = ParitySharesNamespaceID ++ rd (mem w) share).
Proof.
  split.
  - intros Hv Hlen.
    destruct (prependNamespace_0 share w Hv Hlen) as (w' & r & Hrun & _ & Hrd).
    by exists w', r.
  - intros q Hq.
    destruct (prependNamespace_parity q share w) as (w' & r & Hrun & _ & _ & _ & Hrd);
      [lia|].
    by exists w', r.
Qed.

(** ** Loops *)

(** A loop over [m, m+1, ...] whose every step returns and re-establishes
    the invariant returns, with the invariant at the end. *)
Lemma foldM_seqZ_from {B} (I : Z → B → world → Prop) (f : B → Z → M B)
    (len : nat) (m : Z) (b : B) (w : world) :
  I m b w →
  (∀ i b w, m ≤ i < m + Z.of_nat len → I i b w →
     ∃ b' w', f b i w = (w', Ok b') ∧ I (i + 1) b' w') →
  ∃ b' w', foldM f (seqZ m (Z.of_nat len)) b w = (w', Ok b') ∧
           I (m + Z.of_nat len) b' w'.
Proof.
  revert m b w. induction len as [|len IH]; intros m b w HI Hstep.
  - exists b, w. simpl. split; [done|]. by rewrite Z.add_0_r.
  - rewrite seqZ_cons by lia. simpl.
    destruct (Hstep m b w) as (b1 & w1 & Hf & HI1); [lia|done|].
    unfold bind at 1. rewrite Hf.
    replace (Z.pred (Z.of_nat (S len))) with (Z.of_nat len) by lia.
    destruct (IH (Z.succ m) b1 w1) as (b2 & w2 & Hfold & HI2).
    { by replace (Z.succ m) with (m + 1) by lia. }
    { intros i b' w' Hi. apply Hstep. lia. }
    exists b2, w2. split; [done|].
    by replace (m + Z.of_nat (S len)) with (Z.succ m + Z.of_nat len) by lia.
Qed.

Lemma foldM_seqZ_total {B} (I : Z → B → world → Prop) (f : B → Z → M B)
    (n : Z) (b : B) (w : world) :
  0 ≤ n → I 0 b w →
  (∀ i b w, 0 ≤ i < n → I i b w →
     ∃ b' w', f b i w = (w', Ok b') ∧ I (i + 1) b' w') →
  ∃ b' w', foldM f (seqZ 0 n) b w = (w', Ok b') ∧ I n b' w'.
Proof.
  intros Hn HI Hstep.
  destruct (foldM_seqZ_from I f (Z.to_nat n) 0 b w) as (b' & w' & Hf & HI');
    [done| |].
  { intros i b0 w0 Hi. apply Hstep. lia. }
  rewrite Z2Nat.id in * by lia. by exists b', w'.
Qed.

(** ** Quadrant reordering *)

(** On a share without room for an in-place append, tagging allocates. *)
Lemma prependNamespace_alloc (q : Z) (c : slice) (w : world) :
  share_slice (mem w) c → 0 ≤ q < 4 →
  ∃ w' r, prependNamespace q c w = (w', Ok r) ∧
          log w' = log w ∧
          mem w' = mem w ++ [tagged ParitySharesNamespaceID q (rd (mem w) c)] ∧
          s_arr r = length (mem w) ∧
          rd (mem w') r = tagged ParitySharesNamespaceID q (rd (mem w) c).
Proof.
  intros (Hv & Hlen & Htight) Hq. unfold tagged.
  destruct (q =? 0) eqn:Hq0.
  - apply Z.eqb_eq in Hq0 as ->.
    destruct (reslice_read _ _ 8%nat Hv Hlen)
      as (ns & Hns & Hvns & Hrd & Harr & Hcap & Hl).
    unfold prependNamespace, bind, lift. simpl. rewrite Hns.
    unfold go_append. rewrite decide_False
      by (rewrite Hl, Hcap, rd_length by done; lia).
    do 2 eexists. split; [done|]. simpl. rewrite Hrd.
    repeat split; try done.
    replace (s_len ns + length (rd (mem w) c))%nat
      with (length (take 8 (rd (mem w) c) ++ rd (mem w) c)).
    + apply rd_fresh.
    + rewrite length_app, length_take, rd_length by done. lia.
  - destruct (prependNamespace_parity q c w)
      as (w' & r & Hrun & Hlog & Hmem & Harr & Hrd); [lia|].
    by exists w', r.
Qed.

Lemma slot_injective (K q n q0 n0 : Z) :
  0 ≤ n < K → 0 ≤ n0 < K → q * K + n = q0 * K + n0 → q = q0 ∧ n = n0.
Proof. intros Hn Hn0 Heq. assert (q = q0) by nia. subst. lia. Qed.

(** The state of [quadrantOrder] between two assignments: the slots that are
    [done] are placed, nothing else has changed but new arrays. *)
Lemma qo_step (eds : ExtendedDataSquare) (k : Z) (w0 : world)
    (D : Z → Z → Prop) (q0 n0 : Z) (shares : list slice) (w : world) :
  cells_ok (mem w0) eds → Width eds = 2 * k → 0 < k →
  0 ≤ q0 < 4 → 0 ≤ n0 < k * k →
  log w = log w0 → mem w0 `prefix_of` mem w →
  length shares = Z.to_nat (4 * (k * k)) →
  (∀ q n, 0 ≤ q < 4 → 0 ≤ n < k * k → D q n →
     placed ParitySharesNamespaceID eds k (mem w0) (mem w) shares q n) →
  ∃ shares' w',
    (let* t := prependNamespace q0 (quadrant_cell eds k q0 (n0 / k) (n0 mod k)) in
     lift (set_index shares (q0 * (k * k) + n0) t)) w = (w', Ok shares') ∧
    log w' = log w0 ∧ mem w0 `prefix_of` mem w' ∧
    length shares' = Z.to_nat (4 * (k * k)) ∧
    (∀ q n, 0 ≤ q < 4 → 0 ≤ n < k * k → D q n ∨ (q = q0 ∧ n = n0) →
       placed ParitySharesNamespaceID eds k (mem w0) (mem w') shares' q n).
Proof.
  intros Hcells HW Hk Hq0 Hn0 Hlog Hpre Hlen Hdone.
  set (c := quadrant_cell eds k q0 (n0 / k) (n0 mod k)).
  assert (Hc0 : share_slice (mem w0) c).
  { apply Hcells; rewrite HW.
    - assert (0 ≤ n0 / k < k)
        by (split; [apply Z.div_pos|apply Z.div_lt_upper_bound]; lia).
      assert (0 ≤ q0 / 2 < 2)
        by (split; [apply Z.div_pos|apply Z.div_lt_upper_bound]; lia).
      nia.
    - assert (0 ≤ n0 mod k < k) by (apply Z.mod_pos_bound; lia).
      assert (0 ≤ q0 mod 2 < 2) by (apply Z.mod_pos_bound; lia).
      nia. }
  assert (Hc : share_slice (mem w) c).
  { destruct Hc0 as (Hv & Hl). split; [|done]. by eapply valid_prefix. }
  assert (Hrdc : rd (mem w) c = rd (mem w0) c).
  { apply rd_prefix; [done|]. apply valid_arr. apply Hc0. }
  destruct (prependNamespace_alloc q0 c w Hc Hq0)
    as (w1 & r & Hrun & Hlog1 & Hmem1 & Harr & Hrd).
  unfold bind at 1. rewrite Hrun. unfold lift, set_index.
  rewrite Hlen.
  replace ((0 <=? q0 * (k * k) + n0) &&
           (q0 * (k * k) + n0 <? Z.of_nat (Z.to_nat (4 * (k * k))))) with true
    by (symmetry; apply andb_true_iff; split; [apply Z.leb_le|apply Z.ltb_lt]; nia).
  do 2 eexists. split; [done|].
  split; [congruence|].
  split; [rewrite Hmem1; by apply prefix_app_r|].
  split; [by rewrite length_insert|].
  intros q n Hq Hn HD.
  destruct (decide (q = q0 ∧ n = n0)) as [[-> ->]|Hne].
  - exists r. split; [|split].
    + apply list_lookup_insert_eq. rewrite Hlen. nia.
    + rewrite Hmem1, length_app. simpl. lia.
    + by rewrite Hrd, Hrdc.
  - destruct HD as [HD|HD]; [|done].
    destruct (Hdone q n Hq Hn HD) as (sl & Hsl & Harrsl & Hrdsl).
    exists sl. split; [|split].
    + rewrite list_lookup_insert_ne; [done|].
      intros Heq. apply Hne. apply (slot_injective (k * k)); [done..|].
      apply Z2Nat.inj in Heq; nia.
    + rewrite Hmem1, length_app. simpl. lia.
    + rewrite <- Hrdsl. apply rd_prefix; [|done].
      rewrite Hmem1. by apply prefix_app_r.
Qed.

Lemma qo_inv_weaken (eds : ExtendedDataSquare) (k : Z) (w0 : world)
    (D D' : Z → Z → Prop) (shares : list slice) (w : world) :
  (∀ q n, 0 ≤ q < 4 → 0 ≤ n < k * k → D' q n → D q n) →
  qo_inv ParitySharesNamespaceID eds k w0 D shares w →
  qo_inv ParitySharesNamespaceID eds k w0 D' shares w.
Proof.
  intros Himp (Hlog & Hpre & Hlen & Hdone).
  repeat split; try done. intros q n Hq Hn HD. apply Hdone; auto.
Qed.

Lemma width_bounds (k : Z) :
  0 < k → (2 * k) * (2 * k) ≤ max_int → 4 * (k * k) < 2 ^ 63 ∧ k < 2 ^ 31.
Proof. unfold max_int. intros Hk Hb. split; nia. Qed.

Lemma getQuadrantCells_run (eds : ExtendedDataSquare) (k i j : Z) (w : world) :
  Width eds = 2 * k → 0 < k → k < 2 ^ 31 → 0 ≤ i < k → 0 ≤ j < k →
  getQuadrantCells eds i j w
  = (w, Ok [quadrant_cell eds k 0 i j; quadrant_cell eds k 1 i j;
            quadrant_cell eds k 2 i j; quadrant_cell eds k 3 i j]).
Proof.
  intros HW Hk Hb Hi Hj. unfold getQuadrantCells, quadrant_cell, GetCell.
  rewrite HW. replace (2 * k / 2) with k by (apply Z.div_unique_exact; lia).
  rewrite !wrap_uint_small by lia.
  change (0 / 2) with 0. change (1 / 2) with 0. change (2 / 2) with 1.
  change (3 / 2) with 1. change (0 mod 2) with 0. change (1 mod 2) with 1.
  change (2 mod 2) with 0. change (3 mod 2) with 1.
  rewrite !Z.mul_0_l, !Z.mul_1_l, !Z.add_0_r.
  assert (Hin : ∀ x y, 0 ≤ x < 2 * k → 0 ≤ y < 2 * k →
            (0 <=? x) && (x <? 2 * k) && (0 <=? y) && (y <? 2 * k) = true).
  { intros x y Hx Hy. rewrite !andb_true_iff.
    repeat split; try apply Z.leb_le; try apply Z.ltb_lt; lia. }
  unfold bind, lift, ret. rewrite !Hin by lia. done.
Qed.

(** The four assignments of one pass through the inner loop body. *)
Lemma qo_quadrants (eds : ExtendedDataSquare) (k : Z) (w0 : world) (i j : Z)
    (shares : list slice) (w : world) :
  cells_ok (mem w0) eds → Width eds = 2 * k → 0 < k →
  (2 * k) * (2 * k) ≤ max_int → 0 ≤ i < k → 0 ≤ j < k →
  qo_inv ParitySharesNamespaceID eds k w0 (λ _ n, n < i * k + j) shares w →
  ∃ shares' w',
    foldM (λ shares quadrant,
      let* c := lift (index [quadrant_cell eds k 0 i j; quadrant_cell eds k 1 i j;
                             quadrant_cell eds k 2 i j; quadrant_cell eds k 3 i j]
                        quadrant) in
      let* t := prependNamespace quadrant c in
      lift (set_index shares
              (wrap_int (wrap_int (quadrant * (k * k)) + (i * k + j))) t))
      (seqZ 0 4) shares w = (w', Ok shares') ∧
    qo_inv ParitySharesNamespaceID eds k w0 (λ _ n, n < i * k + j + 1) shares' w'.
Proof.
  intros Hcells HW Hk Hb Hi Hj Hinv.
  destruct (width_bounds k Hk Hb) as [Hkk Hk31].
  assert (Hn : 0 ≤ i * k + j < k * k) by nia.
  assert (Hdiv : (i * k + j) / k = i)
    by (symmetry; apply (Z.div_unique _ _ _ j); lia).
  assert (Hmod : (i * k + j) mod k = j)
    by (symmetry; apply (Z.mod_unique _ _ i); lia).
  destruct (foldM_seqZ_total
    (λ q' sh w', qo_inv ParitySharesNamespaceID eds k w0
                   (λ q n, n < i * k + j ∨ (n = i * k + j ∧ q < q')) sh w')
    (λ shares quadrant,
      let* c := lift (index [quadrant_cell eds k 0 i j; quadrant_cell eds k 1 i j;
                             quadrant_cell eds k 2 i j; quadrant_cell eds k 3 i j]
                        quadrant) in
      let* t := prependNamespace quadrant c in
      lift (set_index shares
              (wrap_int (wrap_int (quadrant * (k * k)) + (i * k + j))) t))
    4 shares w) as (shares' & w' & Hrun & Hinv'); [lia| | |].
  - eapply qo_inv_weaken; [|exact Hinv]. simpl.
    intros q n ? ? [?|[? ?]]; [done|lia].
  - intros q sh w1 Hq (Hlog & Hpre & Hlen & Hdone).
    destruct (qo_step eds k w0
                (λ q' n, n < i * k + j ∨ (n = i * k + j ∧ q' < q))
                q (i * k + j) sh w1) as (sh' & w2 & Hstep & Hlog2 & Hpre2 & Hlen2 & Hdone2);
      try done.
    rewrite Hdiv, Hmod in Hstep.
    exists sh', w2. split.
    + rewrite (wrap_int_small (q * (k * k))) by nia.
      rewrite wrap_int_small by nia.
      assert (Hidx : index [quadrant_cell eds k 0 i j; quadrant_cell eds k 1 i j;
                            quadrant_cell eds k 2 i j; quadrant_cell eds k 3 i j] q
                     = Ok (quadrant_cell eds k q i j)).
      { assert (q = 0 ∨ q = 1 ∨ q = 2 ∨ q = 3) as [->|[->|[->| ->]]] by lia; done. }
      unfold bind at 1. unfold lift at 1. rewrite Hidx. exact Hstep.
    + repeat split; try done. intros q' n Hq' Hn' HD. apply Hdone2; try done.
      destruct HD as [?|[-> ?]]; [by left; left|].
      destruct (decide (q' = q)) as [->|]; [by right|]. left. right. lia.
  - exists shares', w'. split; [done|].
    eapply qo_inv_weaken; [|exact Hinv']. simpl. intros q n ? ? Hlt. lia.
Qed.

(** [quadrantOrder] returns, with every slot placed. *)
Lemma quadrantOrder_run (eds : ExtendedDataSquare) (k : Z) (w : world) :
  cells_ok (mem w) eds → Width eds = 2 * k → 0 < k →
  Width eds * Width eds ≤ max_int →
  ∃ out w', quadrantOrder eds w = (w', Ok out) ∧
            qo_inv ParitySharesNamespaceID eds k w (λ _ _, True) out w'.
Proof.
  intros Hcells HW Hk Hb. rewrite HW in Hb.
  destruct (width_bounds k Hk Hb) as [Hkk Hk31].
  unfold quadrantOrder. cbv zeta. rewrite HW.
  replace (2 * k / 2) with k by (apply Z.div_unique_exact; lia).
  rewrite (wrap_int_small k) by lia.
  rewrite (wrap_int_small (k * k)) by nia.
  rewrite (wrap_uint_small (2 * k * (2 * k))) by (unfold max_int in Hb; lia).
  unfold bind at 1. unfold lift at 1. unfold make_slices.
  replace (2 * k * (2 * k) <=? max_int) with true by (symmetry; by apply Z.leb_le).
  match goal with
  | |- ∃ out w', foldM ?f _ ?b _ = _ ∧ _ =>
      destruct (foldM_seqZ_total
        (λ i sh w', qo_inv ParitySharesNamespaceID eds k w (λ _ n, n < i * k) sh w')
        f k b w) as (out & w' & Hrun & Hinv); [lia| | |]
  end.
  - repeat split; try done.
    + rewrite length_replicate. f_equal. lia.
    + intros q n Hq Hn Hlt. nia.
  - intros i sh w1 Hi Hinv.
    match goal with
    | |- ∃ b' w', foldM ?f _ _ _ = _ ∧ _ =>
        destruct (foldM_seqZ_total
          (λ j sh w', qo_inv ParitySharesNamespaceID eds k w
                        (λ _ n, n < i * k + j) sh w')
          f k sh w1) as (sh' & w2 & Hrun & Hinv2); [lia| | |]
    end.
    + eapply qo_inv_weaken; [|exact Hinv]. simpl. intros; lia.
    + intros j sh2 w3 Hj Hinv3.
      rewrite !wrap_uint_small by lia.
      unfold bind at 1. rewrite (getQuadrantCells_run eds k i j) by done.
      rewrite (wrap_int_small (i * k)) by nia.
      rewrite (wrap_int_small (i * k + j)) by nia.
      destruct (qo_quadrants eds k w i j sh2 w3) as (sh3 & w4 & Hq & Hinv4);
        try done.
      exists sh3, w4. split; [done|].
      eapply qo_inv_weaken; [|exact Hinv4]. simpl. intros; lia.
    + exists sh', w2. split; [done|].
      eapply qo_inv_weaken; [|exact Hinv2]. simpl. intros; lia.
  - exists out, w'. split; [done|].
    eapply qo_inv_weaken; [|exact Hinv]. simpl. intros; lia.
Qed.

(** C1. For a matrix of even width [2k] whose cells are shares,
    [quadrantOrder] returns [(2k)²] leaves, and the leaf at [q·k² + (i·k + j)]
    is the tagged form of the cell of quadrant [q] at [(i, j)]: cell [(i, j)]
    for quadrant 0, [(i, j+k)] for 1, [(i+k, j)] for 2, [(i+k, j+k)] for 3. *)
Theorem quadrantOrder_layout (eds : ExtendedDataSquare) (k i j : Z) (w : world) :
  cells_ok (mem w) eds → Width eds = 2 * k → 0 < k →
  Width eds * Width eds ≤ max_int →
  0 ≤ i < k → 0 ≤ j < k →
  ∃ out w',
    quadrantOrder eds w = (w', Ok out) ∧
    Z.of_nat (length out) = Width eds * Width eds ∧
    rd (mem w') <$> out !! Z.to_nat (0 * (k * k) + (i * k + j))
      = Some (take 8 (rd (mem w) (cell eds i j)) ++ rd (mem w) (cell eds i j)) ∧
    rd (mem w') <$> out !! Z.to_nat (1 * (k * k) + (i * k + j))
      = Some (ParitySharesNamespaceID ++ rd (mem w) (cell eds i (j + k))) ∧
    rd (mem w') <$> out !! Z.to_nat (2 * (k * k) + (i * k + j))
      = Some (ParitySharesNamespaceID ++ rd (mem w) (cell eds (i + k) j)) ∧
    rd (mem w') <$> out !! Z.to_nat (3 * (k * k) + (i * k + j))
      = Some (ParitySharesNamespaceID ++ rd (mem w) (cell eds (i + k) (j + k))).
Proof.
  intros Hcells HW Hk Hb Hi Hj.
  destruct (quadrantOrder_run eds k w Hcells HW Hk Hb)
    as (out & w' & Hrun & Hlog & Hpre & Hlen & Hdone).
  exists out, w'. split; [done|]. split; [rewrite Hlen, HW; lia|].
  assert (Hn : 0 ≤ i * k + j < k * k) by nia.
  assert (Hdiv : (i * k + j) / k = i)
    by (symmetry; apply (Z.div_unique _ _ _ j); lia).
  assert (Hmod : (i * k + j) mod k = j)
    by (symmetry; apply (Z.mod_unique _ _ i); lia).
  assert (Hslot : ∀ q, 0 ≤ q < 4 →
            rd (mem w') <$> out !! Z.to_nat (q * (k * k) + (i * k + j))
            = Some (tagged ParitySharesNamespaceID q
                      (rd (mem w) (quadrant_cell eds k q i j)))).
  { intros q Hq. destruct (Hdone q (i * k + j) Hq Hn I) as (sl & Hsl & _ & Hrd).
    rewrite Hsl. simpl. rewrite Hrd, Hdiv, Hmod. done. }
  unfold quadrant_cell, tagged in Hslot.
  pose proof (Hslot 0 ltac:(lia)) as H0.
  pose proof (Hslot 1 ltac:(lia)) as H1.
  pose proof (Hslot 2 ltac:(lia)) as H2.
  pose proof (Hslot 3 ltac:(lia)) as H3.
  change (0 / 2) with 0 in H0. change (0 mod 2) with 0 in H0.
  change (1 / 2) with 0 in H1. change (1 mod 2) with 1 in H1.
  change (2 / 2) with 1 in H2. change (2 mod 2) with 0 in H2.
  change (3 / 2) with 1 in H3. change (3 mod 2) with 1 in H3.
  rewrite ?Z.mul_0_l, ?Z.mul_1_l, ?Z.add_0_r in H0, H1, H2, H3.
  simpl (_ =? _) in H0, H1, H2, H3. cbv iota in H0, H1, H2, H3.
  rewrite ?Z.mul_0_l, ?Z.mul_1_l, ?Z.add_0_l, ?Z.add_0_r in *.
  done.
Qed.

(** ** The invalid-quadrant panic *)

Lemma bind_no_panic {A B} (p : panic) (m : M A) (f : A → M B) :
  (∀ w, (m w).2 ≠ Panic p) → (∀ a w, (f a w).2 ≠ Panic p) →
  ∀ w, (bind m f w).2 ≠ Panic p.
Proof.
  intros Hm Hf w. unfold bind. specialize (Hm w).
  destruct (m w) as [w1 [a|e|p']]; simpl in *; [apply Hf|discriminate|].
  intros [= ->]. by apply Hm.
Qed.

Lemma foldM_no_panic {A B} (p : panic) (f : B → A → M B) (l : list A) :
  (∀ b a w, a ∈ l → (f b a w).2 ≠ Panic p) →
  ∀ b w, (foldM f l b w).2 ≠ Panic p.
Proof.
  induction l as [|a l IH]; intros Hf b w; simpl; [done|].
  apply bind_no_panic.
  - intros w1. apply Hf. by left.
  - intros b1 w1. apply IH. intros b2 a2 w2 Hin. apply Hf. by right.
Qed.

Lemma wrapped_no_panic {A} (p : panic) (msg : string) (m : M A) :
  (∀ w, (m w).2 ≠ Panic p) → ∀ w, (wrapped msg m w).2 ≠ Panic p.
Proof.
  intros Hm w. unfold wrapped. specialize (Hm w).
  by destruct (m w) as [w1 [a|e|p']].
Qed.

Lemma invoke_no_panic (p : panic) (c : call) (w : world) :
  (invoke fault c w).2 ≠ Panic p.
Proof. unfold invoke. by destruct (fault (log w) c). Qed.

Lemma GetCell_no_invalid (eds : ExtendedDataSquare) (x y : Z) :
  GetCell eds x y ≠ Panic PanicInvalidQuadrant.
Proof. unfold GetCell. by case_match. Qed.

Lemma getQuadrantCells_no_invalid (eds : ExtendedDataSquare) (i j : Z) (w : world) :
  (getQuadrantCells eds i j w).2 ≠ Panic PanicInvalidQuadrant.
Proof.
  unfold getQuadrantCells. cbv zeta.
  repeat (apply bind_no_panic; [intros ?; apply GetCell_no_invalid|intros ? ?]).
  done.
Qed.

Lemma prependNamespace_invalid (q : Z) (c : slice) (w : world) :
  (prependNamespace q c w).2 = Panic PanicInvalidQuadrant ↔ ¬ (0 ≤ q ≤ 3).
Proof.
  unfold prependNamespace.
  destruct (q =? 0) eqn:H0.
  - apply Z.eqb_eq in H0. split; [|lia].
    unfold bind, lift, reslice. case_decide; simpl; [|done].
    by destruct (go_append _ _ _).
  - apply Z.eqb_neq in H0.
    destruct ((q =? 1) || (q =? 2) || (q =? 3)) eqn:H123.
    + apply orb_true_iff in H123. rewrite orb_true_iff in H123.
      split; [done|]. lia.
    + apply orb_false_iff in H123 as [H12 H3].
      apply orb_false_iff in H12 as [H1 H2].
      split; [lia|done].
Qed.

Lemma quadrantOrder_no_invalid (eds : ExtendedDataSquare) (w : world) :
  (quadrantOrder eds w).2 ≠ Panic PanicInvalidQuadrant.
Proof.
  unfold quadrantOrder. cbv zeta. apply bind_no_panic.
  { intros w1. unfold lift, make_slices. simpl. by case_match. }
  intros shares w1.
  apply foldM_no_panic. intros sh i w2 _.
  apply foldM_no_panic. intros sh2 j w3 _.
  apply bind_no_panic; [apply getQuadrantCells_no_invalid|].
  intros cells w4.
  apply foldM_no_panic. intros sh3 q w5 Hq.
  apply elem_of_seqZ in Hq.
  apply bind_no_panic.
  { intros w6. unfold lift, index. simpl. by repeat case_match. }
  intros c w6. apply bind_no_panic.
  { intros w7 Hbad. apply prependNamespace_invalid in Hbad. lia. }
  intros t w7. unfold lift, set_index. simpl. by case_match.
Qed.

(** C9. [prependNamespace] panics with "invalid quadrant" exactly when its
    quadrant is outside 0..3; [quadrantOrder] and the writing of the leaf
    section never end in that panic, so no call they make has such a
    quadrant. *)
Theorem invalid_quadrant_unreachable (eds : ExtendedDataSquare)
    (ws : writingSession) (w : world) :
  (∀ q c w0, (prependNamespace q c w0).2 = Panic PanicInvalidQuadrant
             ↔ ¬ (0 ≤ q ≤ 3)) ∧
  (quadrantOrder eds w).2 ≠ Panic PanicInvalidQuadrant ∧
  (writeQuadrants ws w).2 ≠ Panic PanicInvalidQuadrant.
Proof.
  split; [apply prependNamespace_invalid|].
  split; [apply quadrantOrder_no_invalid|].
  unfold writeQuadrants. apply bind_no_panic; [apply quadrantOrder_no_invalid|].
  intros shares w1. unfold forM_. apply foldM_no_panic. intros [] share w2 _.
  apply bind_no_panic; [done|]. intros data w3.
  apply bind_no_panic.
  { apply wrapped_no_panic. intros w4. unfold lift, of_sum. simpl. by case_match. }
  intros c w4. apply wrapped_no_panic. apply invoke_no_panic.
Qed.

(** ** The frame of the pipeline: arrays that exist are left alone *)

Lemma bind_frame {A B} (P : world → Prop) (V : A → Prop) (m : M A) (f : A → M B) :
  (∀ w w' r, P w → m w = (w', r) → P w' ∧ ∀ a, r = Ok a → V a) →
  (∀ a w w' r, V a → P w → f a w = (w', r) → P w') →
  ∀ w w' r, P w → bind m f w = (w', r) → P w'.
Proof.
  intros Hm Hf w w' r HP. unfold bind.
  destruct (m w) as [w1 r1] eqn:Hrun.
  destruct (Hm w w1 r1 HP Hrun) as [HP1 HV].
  destruct r1 as [a|e|p]; [|by intros [= <- <-]..].
  apply Hf; auto.
Qed.

Lemma foldM_frame {A B} (P : world → Prop) (f : B → A → M B) (l : list A) :
  (∀ b a w w' r, P w → f b a w = (w', r) → P w') →
  ∀ b w w' r, P w → foldM f l b w = (w', r) → P w'.
Proof.
  intros Hf. induction l as [|a l IH]; intros b w w' r HP; simpl.
  - by intros [= <- <-].
  - apply (bind_frame P (λ _, True)); [|by eauto|done].
    intros w1 w2 r1 HP1 Hrun. split; [|done]. by eapply Hf.
Qed.

Lemma wrapped_frame {A} (P : world → Prop) (msg : string) (m : M A) :
  (∀ w w' r, P w → m w = (w', r) → P w') →
  ∀ w w' r, P w → wrapped msg m w = (w', r) → P w'.
Proof.
  intros Hm w w' r HP. unfold wrapped.
  destruct (m w) as [w1 r1] eqn:Hrun. specialize (Hm w w1 r1 HP Hrun).
  destruct r1; by intros [= <- <-].
Qed.

Lemma invoke_mem (c : call) (w w' : world) (r : result unit) :
  invoke fault c w = (w', r) → mem w' = mem w.
Proof. unfold invoke. destruct (fault (log w) c); by intros [= <- <-]. Qed.

Lemma prefix_alter_ge (h0 h : heap) (f : list byte → list byte) (i : nat) :
  h0 `prefix_of` h → (length h0 ≤ i)%nat → h0 `prefix_of` alter f i h.
Proof.
  intros [t ->] Hi. rewrite alter_app_r_alt by done. by apply prefix_app_r.
Qed.

Lemma go_append_frame (h0 h : heap) (dst : slice) (data : list byte) :
  h0 `prefix_of` h → (length h0 ≤ s_arr dst)%nat →
  h0 `prefix_of` (go_append h dst data).1.
Proof.
  intros Hpre Hpriv. unfold go_append. case_decide; simpl.
  - by apply prefix_alter_ge.
  - by apply prefix_app_r.
Qed.

(** Tagging a share that lives outside the first arrays leaves them alone,
    also when [append] writes in place. *)
Lemma prependNamespace_frame (h0 : heap) (q : Z) (c : slice)
    (w w' : world) (r : result slice) :
  (length h0 ≤ s_arr c)%nat → h0 `prefix_of` mem w →
  prependNamespace q c w = (w', r) → h0 `prefix_of` mem w'.
Proof.
  intros Hpriv Hpre. unfold prependNamespace.
  destruct (q =? 0).
  - unfold bind, lift, reslice. case_decide; [|by intros [= <- <-]].
    pose proof (go_append_frame h0 (mem w)
                  (Slice (s_arr c) (s_off c) 8 (s_cap c)) (rd (mem w) c)
                  Hpre Hpriv) as Hfr.
    destruct (go_append _ _ _) as [h1 r1]. by intros [= <- <-].
  - destruct ((q =? 1) || (q =? 2) || (q =? 3)).
    + intros [= <- <-]. simpl. by apply prefix_app_r.
    + by intros [= <- <-].
Qed.

Lemma getQuadrantCells_cells (eds : ExtendedDataSquare) (i j : Z)
    (w w' : world) (r : result (list slice)) :
  getQuadrantCells eds i j w = (w', r) →
  w' = w ∧ ∀ cells, r = Ok cells → Forall (λ c, ∃ x y, c = cell eds x y) cells.
Proof.
  unfold getQuadrantCells, bind, lift, ret, GetCell. cbv zeta.
  repeat case_match; intros [= <- <-]; (split; [done|]);
    intros cells Heq; try discriminate; injection Heq as <-;
    simplify_eq; repeat constructor; eauto.
Qed.

Lemma index_elem {A} (l : list A) (i : Z) (a : A) : index l i = Ok a → a ∈ l.
Proof.
  unfold index. repeat case_match; intros [= <-].
  by eapply list_elem_of_lookup_2.
Qed.

Lemma quadrantOrder_frame (h0 : heap) (eds : ExtendedDataSquare)
    (w w' : world) (r : result (list slice)) :
  private (length h0) eds → h0 `prefix_of` mem w →
  quadrantOrder eds w = (w', r) → h0 `prefix_of` mem w'.
Proof.
  intros Hpriv. revert w w' r. unfold quadrantOrder. cbv zeta.
  apply (bind_frame _ (λ _, True)).
  { unfold lift. intros w w' r HP [= <- <-]. done. }
  intros shares w w' r _. revert w w' r.
  apply foldM_frame. intros sh i. apply foldM_frame. intros sh2 j.
  apply (bind_frame _ (λ cells, Forall (λ c, ∃ x y, c = cell eds x y) cells)).
  { intros w w' r HP Hrun.
    apply getQuadrantCells_cells in Hrun as [-> Hcells]. done. }
  intros cells w w' r Hcells. revert w w' r.
  apply foldM_frame. intros sh3 q.
  apply (bind_frame _ (λ c, ∃ x y, c = cell eds x y)).
  { unfold lift. intros w w' r HP [= <- <-]. split; [done|].
    intros c Hc. apply index_elem in Hc.
    by eapply (proj1 (Forall_forall _ _) Hcells). }
  intros c w w' r (x & y & ->) HP.
  revert w w' r HP. apply (bind_frame _ (λ _, True)).
  { intros w w' r HP Hrun. split; [|done].
    by eapply prependNamespace_frame. }
  intros t w w' r _ HP. unfold lift. by intros [= <- <-].
Qed.

(** ** What the pipeline appends to the log *)

Lemma settled_nil {A} (r : result A) : settled (Cid:=Cid) [] r.
Proof.
  destruct r; simpl; [constructor| |];
    (exists [], []; split; [done|]; split; [constructor|simpl; lia]).
Qed.

Lemma settled_app {A B} (d1 d2 : list entry) (a : A) (r : result B) :
  settled d1 (Ok a) → settled d2 r → settled (d1 ++ d2) r.
Proof.
  simpl. intros H1 H2. destruct r; simpl in *.
  - by apply Forall_app.
  - destruct H2 as (d0 & tl & -> & Hd0 & Htl).
    exists (d1 ++ d0), tl. rewrite app_assoc. by rewrite Forall_app.
  - destruct H2 as (d0 & tl & -> & Hd0 & Htl).
    exists (d1 ++ d0), tl. rewrite app_assoc. by rewrite Forall_app.
Qed.

Lemma appends_lift {A} (Q : call → Prop) (r : result A) : appends Q (lift (Cid:=Cid) r).
Proof.
  intros w w' r' [= <- <-]. exists []. rewrite app_nil_r.
  split; [done|]. split; [done|]. apply settled_nil.
Qed.

Lemma appends_ret {A} (Q : call → Prop) (a : A) : appends Q (ret (Cid:=Cid) a).
Proof. apply (appends_lift Q (Ok a)). Qed.

Lemma appends_read (Q : call → Prop) (s : slice) : appends Q (read (Cid:=Cid) s).
Proof.
  intros w w' r' [= <- <-]. exists []. rewrite app_nil_r.
  split; [done|]. split; [done|]. apply (settled_nil (Ok (rd (mem w) s))).
Qed.

Lemma appends_bind {A B} (Q : call → Prop) (m : M A) (f : A → M B) :
  appends Q m → (∀ a, appends Q (f a)) → appends Q (bind m f).
Proof.
  intros Hm Hf w w' r. unfold bind.
  destruct (m w) as [w1 r1] eqn:Hrun.
  destruct (Hm w w1 r1 Hrun) as (d1 & Hlog1 & HQ1 & Hs1).
  destruct r1 as [a|e|p].
  - intros Hrun2. destruct (Hf a w1 w' r Hrun2) as (d2 & Hlog2 & HQ2 & Hs2).
    exists (d1 ++ d2). rewrite Hlog2, Hlog1, app_assoc.
    split; [done|]. split; [by apply Forall_app|]. by eapply settled_app.
  - intros [= <- <-]. by exists d1.
  - intros [= <- <-]. by exists d1.
Qed.

Lemma appends_wrapped {A} (Q : call → Prop) (msg : string) (m : M A) :
  appends Q m → appends Q (wrapped msg m).
Proof.
  intros Hm w w' r. unfold wrapped.
  destruct (m w) as [w1 r1] eqn:Hrun.
  destruct (Hm w w1 r1 Hrun) as (d1 & Hlog1 & HQ1 & Hs1).
  destruct r1 as [a|e|p]; intros [= <- <-]; by exists d1.
Qed.

Lemma appends_foldM {A B} (Q : call → Prop) (f : B → A → M B) (l : list A) :
  (∀ b a, appends Q (f b a)) → ∀ b, appends Q (foldM f l b).
Proof.
  intros Hf. induction l as [|a l IH]; intros b; simpl.
  - apply appends_ret.
  - apply appends_bind; [apply Hf|apply IH].
Qed.

Lemma appends_invoke (Q : call → Prop) (c : call) :
  Q c → appends Q (invoke fault c).
Proof.
  intros HQ w w' r. unfold invoke.
  destruct (fault (log w) c) as [e|]; intros [= <- <-]; simpl.
  - exists [(c, false)]. split; [done|]. split; [by constructor|].
    by exists [], [(c, false)].
  - exists [(c, true)]. split; [done|]. split; [by constructor|].
    by constructor.
Qed.

Lemma appends_emit (Q : call → Prop) (c : call) : Q c → appends Q (emit c).
Proof.
  intros HQ w w' r [= <- <-]. simpl.
  exists [(c, true)]. split; [done|]. split; [by constructor|]. by constructor.
Qed.

Lemma appends_mono {A} (Q Q' : call → Prop) (m : M A) :
  (∀ c, Q c → Q' c) → appends Q m → appends Q' m.
Proof.
  intros Himp Hm w w' r Hrun.
  destruct (Hm w w' r Hrun) as (d & Hlog & HQ & Hs).
  exists d. split; [done|]. split; [|done].
  eapply Forall_impl; [exact HQ|]. intros en. apply Himp.
Qed.

(** A computation that leaves the log alone. *)
Lemma appends_silent {A} (Q : call → Prop) (m : M A) :
  (∀ w w' r, m w = (w', r) → log w' = log w) → appends Q m.
Proof.
  intros Hm w w' r Hrun. exists []. rewrite app_nil_r.
  split; [by eapply Hm|]. split; [done|]. apply settled_nil.
Qed.

Lemma prependNamespace_log (q : Z) (c : slice) (w w' : world) (r : result slice) :
  prependNamespace q c w = (w', r) → log w' = log w.
Proof.
  unfold prependNamespace, bind, lift. repeat case_match; by intros [= <- <-].
Qed.

Lemma quadrantOrder_log (eds : ExtendedDataSquare) (w w' : world)
    (r : result (list slice)) :
  quadrantOrder eds w = (w', r) → log w' = log w.
Proof.
  enough (Hfr : ∀ L w w' r, log w = L → quadrantOrder eds w = (w', r) → log w' = L)
    by (by apply Hfr).
  clear w w' r. intros L. unfold quadrantOrder. cbv zeta.
  apply (bind_frame _ (λ _, True)).
  { unfold lift. intros w w' r HP [= <- <-]. done. }
  intros shares w w' r _. revert w w' r.
  apply foldM_frame. intros sh i. apply foldM_frame. intros sh2 j.
  apply (bind_frame _ (λ _, True)).
  { intros w w' r HP Hrun.
    apply getQuadrantCells_cells in Hrun as [-> _]. done. }
  intros cells w w' r _. revert w w' r.
  apply foldM_frame. intros sh3 q.
  apply (bind_frame _ (λ _, True)).
  { unfold lift. by intros w w' r HP [= <- <-]. }
  intros c w w' r _. revert w w' r. apply (bind_frame _ (λ _, True)).
  { intros w w' r HP Hrun. split; [|done].
    apply prependNamespace_log in Hrun. congruence. }
  intros t w w' r _ HP. unfold lift. by intros [= <- <-].
Qed.

(** ** The phases *)

Lemma import_appends (shares : list slice) (odsWidth : Z) :
  appends (λ c, phase_of_call c = Reconstruction)
          (import importSquare shares odsWidth).
Proof.
  intros w w' r. unfold import.
  destruct (importSquare shares odsWidth (mem w)) as [h [e|x]];
    intros [= <- <-]; simpl.
  - exists [(ImportExtendedDataSquare odsWidth, false)].
    split; [done|]. split; [by constructor|].
    by exists [], [(ImportExtendedDataSquare odsWidth, false)].
  - exists [(ImportExtendedDataSquare odsWidth, true)].
    split; [done|]. split; [by constructor|]. by constructor.
Qed.

Lemma initializeWriter_appends (eds : ExtendedDataSquare) :
  appends (λ c, phase_of_call c = Reconstruction) (initializeWriter eds).
Proof.
  unfold initializeWriter. cbv zeta. case_match; [apply appends_lift|].
  apply appends_bind; [by apply appends_emit|]. intros _.
  apply appends_bind; [apply appends_wrapped, import_appends|]. intros x.
  apply appends_bind; [by apply appends_emit|]. intros _.
  apply appends_bind; [by apply appends_wrapped, appends_invoke|]. intros _.
  apply appends_ret.
Qed.

Lemma initializeWriter_empty (eds : ExtendedDataSquare) (w : world) :
  length (ExtractEDS eds) = 0%nat →
  initializeWriter eds w = (w, Err ErrEmptySquare).
Proof. intros Hlen. unfold initializeWriter. cbv zeta. by rewrite Hlen. Qed.

(** A session only comes out of a reconstruction whose root computation
    returned and whose commit succeeded, in this order. *)
Lemma initializeWriter_ok_log (eds : ExtendedDataSquare) (w w' : world)
    (ws : writingSession) :
  initializeWriter eds w = (w', Ok ws) →
  ∃ size odsWidth,
    log w' = log w ++ [(NewNmtNodeAdder size, true);
                       (ImportExtendedDataSquare odsWidth, true);
                       (ComputeRowRoots, true); (Commit, true)].
Proof.
  unfold initializeWriter, bind, wrapped, emit, import, invoke, lift, ret.
  cbv zeta. simpl. intros Hrun.
  repeat (case_match; simplify_eq). simpl.
  rewrite <- !app_assoc. simpl. by eexists _, _.
Qed.

Lemma initializeWriter_frame (h0 : heap) (eds : ExtendedDataSquare)
    (w w' : world) (r : result writingSession) :
  private_copy importSquare → h0 `prefix_of` mem w →
  initializeWriter eds w = (w', r) →
  h0 `prefix_of` mem w' ∧ ∀ ws, r = Ok ws → private (length h0) (ws_eds ws).
Proof.
  intros Hcopy Hpre.
  unfold initializeWriter, bind, wrapped, emit, import, invoke, lift, ret.
  cbv zeta. simpl. case_match; [by intros [= <- <-]|].
  match goal with
  | |- context [importSquare ?s ?k (mem w)] =>
      destruct (Hcopy s k (mem w)) as [Hgrow Hpriv];
      destruct (importSquare s k (mem w)) as [h1 [e|[eds' nodes]]] eqn:Himp
  end; simpl in *.
  - intros Heq. simplify_eq. simpl. split; [by trans (mem w)|done].
  - destruct (fault _ Commit); intros Heq; simplify_eq; simpl;
      (split; [by trans (mem w)|]); [done|].
    intros ws [= <-]. simpl. intros x y.
    specialize (Hpriv eds' nodes eq_refl x y).
    apply prefix_length in Hpre. lia.
Qed.

Lemma writeHeader_appends (ws : writingSession) :
  appends (λ c, ∃ cids, c = WriteHeader cids 1) (writeHeader ws).
Proof.
  unfold writeHeader. apply appends_bind.
  - apply appends_wrapped. unfold rootsToCids. cbv zeta.
    apply appends_wrapped, appends_lift.
  - intros cids. apply appends_invoke. by exists cids.
Qed.

Lemma writeHeader_mem (ws : writingSession) (w w' : world) (r : result unit) :
  writeHeader ws w = (w', r) → mem w' = mem w.
Proof.
  unfold writeHeader, rootsToCids, bind, wrapped, lift, invoke. cbv zeta.
  repeat case_match; simplify_eq; by intros [= <- <-].
Qed.

Lemma writeQuadrants_appends (ws : writingSession) :
  appends (λ c, ∃ cid data, c = LdWrite LeafSection cid data) (writeQuadrants ws).
Proof.
  unfold writeQuadrants. apply appends_bind.
  - apply appends_silent. apply quadrantOrder_log.
  - intros shares. unfold forM_. apply appends_foldM. intros [] share.
    apply appends_bind; [apply appends_read|]. intros data.
    apply appends_bind; [apply appends_wrapped, appends_lift|]. intros cid.
    apply appends_wrapped, appends_invoke. by exists cid, data.
Qed.

Lemma writeProofs_appends (ws : writingSession) :
  appends (λ c, phase_of_call c = Proofs) (writeProofs ws).
Proof.
  unfold writeProofs. cbv zeta.
  apply appends_bind; [by apply appends_wrapped, appends_invoke|]. intros _.
  unfold forM_. apply appends_foldM. intros [] proofCid.
  apply appends_bind.
  { apply appends_wrapped. unfold getBlock.
    apply appends_bind; [by apply appends_invoke|]. intros _.
    case_match; [apply appends_ret|apply appends_lift]. }
  intros node.
  apply appends_bind; [apply appends_wrapped, appends_lift|]. intros cid.
  by apply appends_wrapped, appends_invoke.
Qed.

(** ** The orchestrator *)

(** [WriteEDS] ends in the world of the phase that ended it, with that
    phase's result annotated; only the last phase ends it without error. *)
Lemma WriteEDS_stops (eds : ExtendedDataSquare) (w w' : world) (r : result unit) :
  WriteEDS eds w = (w', r) →
  ∃ ph rp, phase_run eds ph w = Some (w', rp) ∧
           r = annotate ph rp ∧ (ph ≠ Proofs → is_ok rp = false).
Proof.
  unfold WriteEDS, bind, wrapped, ret. intros Hrun.
  destruct (initializeWriter eds w) as [w1 r1] eqn:H1.
  destruct r1 as [ws|e|p]; simplify_eq.
  2,3: exists Reconstruction; eexists; simpl; rewrite H1; by split.
  destruct (writeHeader ws w1) as [w2 r2] eqn:H2.
  destruct r2 as [[]|e|p]; simplify_eq.
  2,3: exists Header; eexists; simpl; rewrite H1, H2; by split.
  destruct (writeQuadrants ws w2) as [w3 r3] eqn:H3.
  destruct r3 as [[]|e|p]; simplify_eq.
  2,3: exists Leaves; eexists; simpl; rewrite H1, H2, H3; by split.
  destruct (writeProofs ws w3) as [w4 r4] eqn:H4.
  exists Proofs, r4. simpl. rewrite H1, H2, H3, H4.
  destruct r4 as [[]|e|p]; simplify_eq; by split.
Qed.

Lemma settled_void {A} (d : list entry) (r : result A) :
  settled d r → settled d (void r).
Proof. by destruct r. Qed.

Lemma leaf_write_phase (c : call) :
  (∃ cid data, c = LdWrite LeafSection cid data) → phase_of_call c = Leaves.
Proof. by intros (cid & data & ->). Qed.

Lemma header_write_phase (c : call) :
  (∃ cids, c = WriteHeader cids 1) → phase_of_call c = Header.
Proof. by intros (cids & ->). Qed.

(** Up to the end of a phase the log holds calls of that phase and of the
    phases before it only, and no call follows a failed one. *)
Lemma phase_run_log (eds : ExtendedDataSquare) (ph : phase)
    (w w' : world) (rp : result unit) :
  phase_run eds ph w = Some (w', rp) →
  ∃ d, log w' = log w ++ d ∧
       Forall (λ en, phase_index (phase_of_call en.1) ≤ phase_index ph) d ∧
       settled d rp.
Proof.
  assert (Hweak : ∀ (d : list entry) p n,
            Forall (λ en, phase_of_call en.1 = p) d → phase_index p ≤ n →
            Forall (λ en, phase_index (phase_of_call en.1) ≤ n) d).
  { intros d p n Hd Hle. eapply Forall_impl; [exact Hd|].
    simpl. by intros en ->. }
  unfold phase_run.
  destruct (initializeWriter eds w) as [w1 r1] eqn:H1.
  destruct (initializeWriter_appends eds w w1 r1 H1) as (d1 & Hl1 & HQ1 & Hs1).
  destruct ph.
  { intros [= <- <-]. exists d1. split; [done|].
    split; [by eapply Hweak|by apply settled_void]. }
  all: destruct r1 as [ws|e|p]; [|done..].
  all: destruct (writeHeader ws w1) as [w2 r2] eqn:H2.
  all: destruct (writeHeader_appends ws w1 w2 r2 H2) as (d2 & Hl2 & HQ2 & Hs2).
  all: assert (HP2 : Forall (λ en : entry, phase_of_call en.1 = Header) d2)
         by (eapply Forall_impl; [exact HQ2|]; intros en; apply header_write_phase).
  { intros [= <- <-]. exists (d1 ++ d2). rewrite Hl2, Hl1, app_assoc.
    split; [done|]. split; [|by eapply settled_app].
    apply Forall_app. split; by eapply Hweak. }
  all: destruct r2 as [[]|e|p]; [|done..].
  all: destruct (writeQuadrants ws w2) as [w3 r3] eqn:H3.
  all: destruct (writeQuadrants_appends ws w2 w3 r3 H3) as (d3 & Hl3 & HQ3 & Hs3).
  all: assert (HP3 : Forall (λ en : entry, phase_of_call en.1 = Leaves) d3)
         by (eapply Forall_impl; [exact HQ3|]; intros en; apply leaf_write_phase).
  { intros [= <- <-]. exists (d1 ++ d2 ++ d3).
    rewrite Hl3, Hl2, Hl1, <- !app_assoc.
    split; [done|]. split.
    - rewrite !Forall_app. repeat split; by eapply Hweak.
    - eapply settled_app; [exact Hs1|]. by eapply settled_app. }
  destruct r3 as [[]|e|p]; [|done..].
  intros Hrun. simplify_eq.
  destruct (writeProofs ws w3) as [w4 r4] eqn:H4. simplify_eq.
  destruct (writeProofs_appends ws w3 w' rp H4) as (d4 & Hl4 & HQ4 & Hs4).
  exists (d1 ++ d2 ++ d3 ++ d4).
  rewrite Hl4, Hl3, Hl2, Hl1, <- !app_assoc.
  split; [done|]. split.
  - rewrite !Forall_app. repeat split; by eapply Hweak.
  - eapply settled_app; [exact Hs1|].
    eapply settled_app; [exact Hs2|]. by eapply settled_app.
Qed.

Lemma errors_Is_refl (e : error) : errors_Is e e = true.
Proof. destruct e; cbn [errors_Is]; by destruct (decide _). Qed.

Lemma errors_Is_wrap (msg : string) (e : error) :
  errors_Is (Errorf msg e) e = true.
Proof.
  cbn [errors_Is]. destruct (decide _); [done|]. apply errors_Is_refl.
Qed.

(** C7. [WriteEDS] ends with the phase that first fails: its world is the
    world that phase left, no call of a later phase is in the log and no
    call follows a failed one; the error it returns is that phase's error
    under the phase's annotation, of the same kind; it returns without
    error only when the last phase has. *)
Theorem first_error_aborts (eds : ExtendedDataSquare) (w w' : world)
    (r : result unit) :
  WriteEDS eds w = (w', r) →
  ∃ ph rp d,
    phase_run eds ph w = Some (w', rp) ∧
    r = annotate ph rp ∧
    (r = Ok tt → ph = Proofs ∧ rp = Ok tt) ∧
    log w' = log w ++ d ∧
    Forall (λ en, phase_index (phase_of_call en.1) ≤ phase_index ph) d ∧
    settled d r ∧
    ∀ e, r = Err e →
      ∃ e0, rp = Err e0 ∧ e = Errorf (annotation ph) e0 ∧
            kind_of e = kind_of e0 ∧ errors_Is e e0 = true.
Proof.
  intros Hrun.
  destruct (WriteEDS_stops eds w w' r Hrun) as (ph & rp & Hph & -> & Hlast).
  destruct (phase_run_log eds ph w w' rp Hph) as (d & Hlog & Hd & Hs).
  exists ph, rp, d.
  split; [done|]. split; [done|]. split; [|split; [done|split; [done|split]]].
  - intros Hok. destruct rp as [[]|e|p]; try done.
    split; [|done]. destruct ph; try done; by specialize (Hlast ltac:(done)).
  - by destruct rp.
  - intros e He. destruct rp as [a|e0|p]; simplify_eq.
    simpl in He. simplify_eq.
    exists e0. split; [done|]. split; [done|]. split; [done|].
    apply errors_Is_wrap.
Qed.

Lemma app_split_first {A} (P : A → Prop) (l1 l2 pre : list A) (x : A)
    (post : list A) :
  l1 ++ l2 = pre ++ x :: post → Forall (λ y, ¬ P y) l1 → P x →
  ∃ pre', pre = l1 ++ pre'.
Proof.
  revert pre. induction l1 as [|a l1 IH]; intros pre Heq Hl1 Hx.
  - by exists pre.
  - apply Forall_cons in Hl1 as [Ha Hl1].
    destruct pre as [|b pre]; simpl in Heq; simplify_eq; [done|].
    destruct (IH pre) as [pre' ->]; [done..|]. by exists pre'.
Qed.

(** C4. In the log of a call, whatever precedes a call of proof emission (the
    enumeration of the cache, a read from it, the write of a proof block)
    starts with the reconstruction, the root computation after it and the
    successful commit after that. *)
Theorem commit_before_proofs (eds : ExtendedDataSquare) (w w' : world)
    (r : result unit) :
  WriteEDS eds w = (w', r) →
  ∃ d, log w' = log w ++ d ∧
    ∀ pre en post, d = pre ++ en :: post → is_proof_call en.1 = true →
      ∃ size odsWidth rest,
        pre = (NewNmtNodeAdder size, true)
              :: (ImportExtendedDataSquare odsWidth, true)
              :: (ComputeRowRoots, true) :: (Commit, true) :: rest.
Proof.
  intros Hrun.
  destruct (WriteEDS_stops eds w w' r Hrun) as (ph & rp & Hph & -> & Hlast).
  destruct (phase_run_log eds ph w w' rp Hph) as (d & Hlog & Hd & Hs).
  exists d. split; [done|]. intros pre en post -> Hen.
  assert (Hproofs : ph = Proofs).
  { apply Forall_app in Hd as [_ Hd]. apply Forall_cons in Hd as [Hd _].
    unfold is_proof_call in Hen.
    destruct (phase_of_call en.1); try discriminate.
    destruct ph; simpl in Hd; (done || lia). }
  subst ph. unfold phase_run in Hph.
  destruct (initializeWriter eds w) as [w1 [ws|e|p]] eqn:H1; [|done..].
  destruct (initializeWriter_ok_log eds w w1 ws H1) as (size & odsWidth & Hl1).
  destruct (writeHeader ws w1) as [w2 [[]|e|p]] eqn:H2; [|done..].
  destruct (writeHeader_appends ws w1 w2 _ H2) as (d2 & Hl2 & _).
  destruct (writeQuadrants ws w2) as [w3 [[]|e|p]] eqn:H3; [|done..].
  destruct (writeQuadrants_appends ws w2 w3 _ H3) as (d3 & Hl3 & _).
  simplify_eq.
  destruct (writeProofs_appends ws w3 w' rp Hph) as (d4 & Hl4 & _).
  rewrite Hl4, Hl3, Hl2, Hl1, <- !app_assoc in Hlog.
  apply app_inv_head in Hlog.
  destruct (app_split_first (λ en, is_proof_call en.1 = true) _ _ _ _ _ Hlog)
    as [pre' ->]; [|done|].
  { repeat constructor; simpl; done. }
  simpl. by exists size, odsWidth, pre'.
Qed.

(** C5. When no share is extracted from the matrix, [WriteEDS] fails with the
    empty-square error, a validation error, and the world is as before: no
    call was made, nothing was written to the sink. *)
Theorem empty_square_rejected (eds : ExtendedDataSquare) (w : world) :
  length (ExtractEDS eds) = 0%nat →
  ∃ e, WriteEDS eds w = (w, Err e) ∧
       errors_Is e ErrEmptySquare = true ∧
       root_cause e = ErrEmptySquare ∧
       kind_of e = ValidationError ∧
       sink_calls (log w) = sink_calls (log (WriteEDS eds w).1).
Proof.
  intros Hlen.
  exists (Errorf "share: failure creating eds writer" ErrEmptySquare).
  assert (Hrun : WriteEDS eds w
                 = (w, Err (Errorf "share: failure creating eds writer"
                              ErrEmptySquare))).
  { unfold WriteEDS, bind, wrapped. by rewrite initializeWriter_empty. }
  rewrite Hrun. by repeat split.
Qed.

(** ** The header *)


Lemma writeHeader_run (ws : writingSession) (w w' : world) (r : result unit) :
  writeHeader ws w = (w', r) →
  (w' = w ∧ is_ok r = false) ∨
  (∃ cids ok,
     mapE CidFromNamespacedSha256 (RowRoots (ws_eds ws) ++ ColRoots (ws_eds ws))
       = inr cids ∧
     log w' = log w ++ [(WriteHeader cids 1, ok)] ∧ ok = is_ok r).
Proof.
  unfold writeHeader, rootsToCids, bind, wrapped, lift, invoke, of_sum.
  cbv zeta.
  destruct (mapE _ _) as [e|cids]; simpl.
  - intros [= <- <-]. by left.
  - destruct (fault (log w) (WriteHeader cids 1)); intros [= <- <-];
      right; exists cids; by eexists.
Qed.

Lemma sink_calls_app (d1 d2 : list entry) :
  sink_calls (d1 ++ d2) = sink_calls d1 ++ sink_calls d2.
Proof. apply filter_app. Qed.

Lemma sink_calls_none (d : list entry) :
  Forall (λ en, is_sink_call en.1 = false) d → sink_calls d = [].
Proof.
  induction 1 as [|en d Hen Hd IH]; [done|].
  unfold sink_calls in *. rewrite filter_cons_False; [done|].
  rewrite Hen. intros Hf. exact Hf.
Qed.



(** ** The caller's matrix *)

Lemma lift_frame {A} (P : world → Prop) (x : result A) (w w' : world)
    (r : result A) :
  P w → lift x w = (w', r) → P w'.
Proof. by intros HP [= <- <-]. Qed.

Lemma invoke_frame (h0 : heap) (c : call) (w w' : world) (r : result unit) :
  h0 `prefix_of` mem w → invoke fault c w = (w', r) → h0 `prefix_of` mem w'.
Proof. intros HP Hrun. apply invoke_mem in Hrun. by rewrite Hrun. Qed.

Lemma writeQuadrants_frame (h0 : heap) (ws : writingSession)
    (w w' : world) (r : result unit) :
  private (length h0) (ws_eds ws) → h0 `prefix_of` mem w →
  writeQuadrants ws w = (w', r) → h0 `prefix_of` mem w'.
Proof.
  intros Hpriv. revert w w' r. unfold writeQuadrants.
  apply (bind_frame _ (λ _, True)).
  { intros w w' r HP Hrun. split; [|done]. by eapply quadrantOrder_frame. }
  intros shares w w' r _. revert w w' r. unfold forM_.
  apply foldM_frame. intros [] share.
  apply (bind_frame _ (λ _, True)).
  { intros w w' r HP [= <- <-]. done. }
  intros data w w' r _. revert w w' r.
  apply (bind_frame _ (λ _, True)).
  { intros w w' r HP Hrun. split; [|done]. revert w w' r HP Hrun.
    apply wrapped_frame. intros w w' r. apply (lift_frame (λ w0, h0 `prefix_of` mem w0)). }
  intros cid w w' r _. revert w w' r.
  apply wrapped_frame. intros w w' r. apply invoke_frame.
Qed.

Lemma writeProofs_frame (h0 : heap) (ws : writingSession)
    (w w' : world) (r : result unit) :
  h0 `prefix_of` mem w → writeProofs ws w = (w', r) → h0 `prefix_of` mem w'.
Proof.
  revert w w' r. unfold writeProofs. cbv zeta.
  apply (bind_frame _ (λ _, True)).
  { intros w w' r HP Hrun. split; [|done]. revert w w' r HP Hrun.
    apply wrapped_frame. intros w w' r. apply invoke_frame. }
  intros _ w w' r _. revert w w' r. unfold forM_.
  apply foldM_frame. intros [] proofCid.
  apply (bind_frame _ (λ _, True)).
  { intros w w' r HP Hrun. split; [|done]. revert w w' r HP Hrun.
    apply wrapped_frame. unfold getBlock.
    apply (bind_frame _ (λ _, True)).
    { intros w w' r HP Hrun. split; [|done]. by eapply invoke_frame. }
    intros _ w w' r _. case_match; apply (lift_frame (λ w0, h0 `prefix_of` mem w0)). }
  intros node w w' r _. revert w w' r.
  apply (bind_frame _ (λ _, True)).
  { intros w w' r HP Hrun. split; [|done]. revert w w' r HP Hrun.
    apply wrapped_frame. intros w w' r. apply (lift_frame (λ w0, h0 `prefix_of` mem w0)). }
  intros cid w w' r _. revert w w' r.
  apply wrapped_frame. intros w w' r. apply invoke_frame.
Qed.

(** C8. When reconstruction works on a private copy, [WriteEDS] leaves every
    backing array that exists at the call as it is, whatever the result of
    the call: every cell of the caller's matrix holds the same bytes
    afterwards, also where [append] wrote into a cell of the copy. *)
Theorem caller_matrix_untouched (eds : ExtendedDataSquare) (w w' : world)
    (r : result unit) :
  private_copy importSquare → WriteEDS eds w = (w', r) →
  mem w `prefix_of` mem w' ∧
  ∀ x y, valid (mem w) (cell eds x y) →
         rd (mem w') (cell eds x y) = rd (mem w) (cell eds x y).
Proof.
  intros Hcopy Hrun.
  assert (Hpre : mem w `prefix_of` mem w').
  { revert Hrun. unfold WriteEDS, bind, wrapped, ret.
    destruct (initializeWriter eds w) as [w1 r1] eqn:H1.
    destruct (initializeWriter_frame (mem w) eds w w1 r1 Hcopy) as [Hp1 Hpriv];
      [done..|].
    destruct r1 as [ws|e|p]; [|by intros [= <- <-]..].
    specialize (Hpriv ws eq_refl).
    destruct (writeHeader ws w1) as [w2 r2] eqn:H2.
    assert (Hp2 : mem w `prefix_of` mem w2)
      by (apply writeHeader_mem in H2; by rewrite H2).
    destruct r2 as [[]|e|p]; [|by intros [= <- <-]..].
    destruct (writeQuadrants ws w2) as [w3 r3] eqn:H3.
    assert (Hp3 : mem w `prefix_of` mem w3)
      by (by eapply writeQuadrants_frame).
    destruct r3 as [[]|e|p]; [|by intros [= <- <-]..].
    destruct (writeProofs ws w3) as [w4 r4] eqn:H4.
    assert (Hp4 : mem w `prefix_of` mem w4)
      by (by eapply writeProofs_frame).
    destruct r4 as [[]|e|p]; by intros [= <- <-]. }
  split; [done|]. intros x y Hv.
  apply rd_prefix; [done|]. by apply valid_arr.
Qed.

(** ** The batch size *)

Lemma initializeWriter_batch (eds : ExtendedDataSquare) (w : world) (N : Z) :
  Z.of_nat (length (ExtractEDS eds)) = N → N ≠ 0 →
  ∃ rest, log (initializeWriter eds w).1
          = log w ++ (NewNmtNodeAdder (innerNodeBatchSize N (odsWidthOf N)), true)
                     :: rest.
Proof.
  intros HN Hne. unfold initializeWriter. cbv zeta. rewrite HN.
  apply Z.eqb_neq in Hne. rewrite Hne.
  unfold bind at 1. unfold emit at 1.
  match goal with
  | |- context [bind ?m ?f ?w1] =>
      destruct (bind m f w1) as [w2 r2] eqn:Hrest;
      assert (Happ : appends (λ _, True) (bind m f))
  end.
  { apply appends_bind; [apply appends_wrapped|intros x].
    - eapply appends_mono; [|apply import_appends]. done.
    - apply appends_bind; [by apply appends_emit|]. intros _.
      apply appends_bind; [by apply appends_wrapped, appends_invoke|]. intros _.
      apply appends_ret. }
  destruct (Happ _ _ _ Hrest) as (d & Hlog & _). simpl in Hlog.
  exists d. simpl. by rewrite Hlog, <- app_assoc.
Qed.

(** C6. For a share count [N = (2k)²] whose double fits an [int], the batch
    size is [2N - 4k]; this is the size [initializeWriter] hands to the batch
    adder for a matrix of [N] shares, when a float64 holds [N] exactly. *)
Theorem innerNodeBatchSize_formula (N k : Z) (eds : ExtendedDataSquare)
    (w : world) :
  N = (2 * k) ^ 2 → 2 * N ≤ max_int →
  innerNodeBatchSize N k = 2 * N - 4 * k ∧
  (1 ≤ k → float64_exact N → Z.of_nat (length (ExtractEDS eds)) = N →
   ∃ rest, log (initializeWriter eds w).1
           = log w ++ (NewNmtNodeAdder (2 * N - 4 * k), true) :: rest).
Proof.
  intros HN Hfit.
  assert (Hsize : innerNodeBatchSize N k = 2 * N - 4 * k).
  { unfold max_int in Hfit. unfold innerNodeBatchSize.
    rewrite Z.pow_2_r in HN.
    assert (Hsq : 0 ≤ k * k) by nia.
    assert (HN' : N = 4 * (k * k)) by lia.
    assert (Hk : - 2 ^ 30 < k < 2 ^ 30) by nia.
    assert (Hkk : k * k ≤ (2 ^ 30 - 1) * (2 ^ 30 - 1)) by nia.
    rewrite (wrap_int_small (N * 2)) by lia.
    rewrite (wrap_int_small (k * 4)) by lia.
    rewrite wrap_int_small by lia. lia. }
  split; [done|]. intros Hk Hex Hlen.
  assert (Hods : odsWidthOf N = k).
  { apply odsWidthOf_square; try done. assert (0 ≤ N) by lia. lia. }
  destruct (initializeWriter_batch eds w N Hlen) as (rest & Hlog).
  { rewrite HN, Z.pow_2_r. nia. }
  exists rest. by rewrite Hlog, Hods, Hsize.
Qed.

End Properties.

(** * Further properties of the code *)

(** ** The width computed from any square share count *)

(** The bit lengths of a positive number and of its square. *)
Lemma digits_of_square (s : Z) :
  1 ≤ s → s * s ≤ max_int →
  1 ≤ Zdigits2 s ≤ 32 ∧
  (Zdigits2 (s * s) = 2 * Zdigits2 s - 1 ∨ Zdigits2 (s * s) = 2 * Zdigits2 s).
Proof.
  intros Hs Hmax. unfold max_int in Hmax.
  pose proof (Zdigits2_bounds s ltac:(lia)) as [Hlo Hhi].
  pose proof (Zdigits2_bounds (s * s) ltac:(nia)) as [HLo HHi].
  set (t := Zdigits2 s) in *. set (D := Zdigits2 (s * s)) in *.
  assert (Ht1 : 0 < t).
  { unfold t. destruct s eqn:E; simpl; lia. }
  assert (Hsq_lo : 2 ^ (2 * t - 2) ≤ s * s).
  { replace (2 * t - 2) with ((t - 1) + (t - 1)) by lia.
    rewrite Z.pow_add_r by lia.
    assert (0 < 2 ^ (t - 1)) by (apply Z.pow_pos_nonneg; lia). nia. }
  assert (Hsq_hi : s * s < 2 ^ (2 * t)).
  { replace (2 * t) with (t + t) by lia. rewrite Z.pow_add_r by lia. nia. }
  assert (Ht32 : t ≤ 32).
  { destruct (Z.le_gt_cases t 32) as [|Hgt]; [done|].
    assert (2 ^ 64 ≤ 2 ^ (2 * t - 2)) by (apply Z.pow_le_mono_r; lia). lia. }
  split; [lia|].
  assert (HD1 : 0 < D).
  { unfold D. destruct (s * s) eqn:E; simpl; nia. }
  assert (2 * t - 1 ≤ D).
  { destruct (Z.le_gt_cases (2 * t - 1) D) as [|Hgt]; [done|].
    assert (2 ^ D ≤ 2 ^ (2 * t - 2)) by (apply Z.pow_le_mono_r; lia). lia. }
  assert (D ≤ 2 * t).
  { destruct (Z.le_gt_cases D (2 * t)) as [|Hgt]; [done|].
    assert (2 ^ (2 * t) ≤ 2 ^ (D - 1)) by (apply Z.pow_le_mono_r; lia). lia. }
  lia.
Qed.

(** The square root of the float that denotes [s²] is the float that
    denotes [s]. *)
Lemma sqrt_of_square (s : Z) (m : positive) :
  1 ≤ s → s * s ≤ max_int →
  Zdigits2 (Z.pos m) = 53 →
  (∀ n, 0 ≤ n → Zdigits2 (s * s) - 53 ≤ n →
        Z.pos m * 2 ^ n = s * s * 2 ^ (n - (Zdigits2 (s * s) - 53))) →
  ∃ q, math_Sqrt (S754_finite false m (Zdigits2 (s * s) - 53))
       = S754_finite false q (Zdigits2 s - 53) ∧
       Z.pos q = s * 2 ^ (53 - Zdigits2 s).
Proof.
  intros Hs Hmax Hdm Hval.
  destruct (digits_of_square s Hs Hmax) as [Ht HD].
  set (t := Zdigits2 s) in *. set (D := Zdigits2 (s * s)) in *.
  assert (HQ : 0 < s * 2 ^ (53 - t)).
  { assert (0 < 2 ^ (53 - t)) by (apply Z.pow_pos_nonneg; lia). nia. }
  destruct (s * 2 ^ (53 - t)) as [|q|q] eqn:HQeq; try lia.
  exists q. split; [|done].
  assert (Hcore : SFsqrt_core_binary prec emax (Z.pos m) (D - 53)
                  = (Z.pos q, t - 53, loc_Exact)).
  { unfold SFsqrt_core_binary. rewrite Hdm.
    assert (He' : Z.min (fexp prec emax (Z.div2 (53 + (D - 53) + 1))) (Z.div2 (D - 53))
                  = t - 53).
    { rewrite !Z.div2_div.
      assert ((53 + (D - 53) + 1) / 2 = t) as ->.
      { symmetry. destruct HD as [HD|HD].
        - apply (Z.div_unique _ _ _ 0); lia.
        - apply (Z.div_unique _ _ _ 1); lia. }
      rewrite fexp_normal by lia.
      assert (t - 27 ≤ (D - 53) / 2) by (apply Z.div_le_lower_bound; lia).
      lia. }
    rewrite He'.
    assert (Hsh : D - 53 - 2 * (t - 53) = D - 2 * t + 53) by lia.
    rewrite Hsh.
    destruct (D - 2 * t + 53) as [|n|n] eqn:Hseq; try lia.
    rewrite Z.shiftl_mul_pow2 by lia.
    rewrite Hval by lia.
    replace (Z.pos n - (D - 53)) with ((53 - t) + (53 - t)) by lia.
    rewrite Z.pow_add_r by lia.
    replace (s * s * (2 ^ (53 - t) * 2 ^ (53 - t)))
      with ((s * 2 ^ (53 - t)) * (s * 2 ^ (53 - t))) by lia.
    rewrite HQeq. rewrite sqrtrem_square by lia. done. }
  unfold math_Sqrt, SFsqrt. rewrite Hcore.
  apply round_aux_canonical; [|unfold emax, prec; lia].
  assert (Hdq : Zdigits2 (Z.pos q) = 53).
  { rewrite <- HQeq.
    destruct s as [|p|p] eqn:Hp; try lia.
    rewrite Zdigits2_shift by lia. fold t. lia. }
  rewrite Hdq, fexp_normal by lia. lia.
Qed.

Lemma odsWidthOf_any_square (s N : Z) :
  1 ≤ s → N = s * s → N ≤ max_int → float64_exact N →
  odsWidthOf N = s / 2.
Proof.
  intros Hs HN Hmax Hex. subst N.
  assert (HN0 : 0 < s * s) by nia.
  destruct (float64_of_int_exact _ HN0 Hmax Hex) as (m & Hconv & Hdm & Hval).
  destruct (sqrt_of_square s m Hs Hmax Hdm Hval) as (q & Hsqrt & Hq).
  destruct (digits_of_square s Hs Hmax) as [Ht _].
  set (t := Zdigits2 s) in *.
  assert (Hdq : Zdigits2 (Z.pos q) = 53).
  { rewrite Hq. destruct s as [|p|p] eqn:Hp; try lia.
    rewrite Zdigits2_shift by lia. fold t. lia. }
  unfold odsWidthOf. rewrite Hconv, Hsqrt, halve_exact by (done || lia).
  unfold int_of_float64.
  replace (0 <=? t - 53 - 1) with false by (symmetry; apply Z.leb_gt; lia).
  replace (- (t - 53 - 1)) with (1 + (53 - t)) by lia.
  rewrite Hq, Z.pow_add_r by lia.
  assert (0 < 2 ^ (53 - t)) by (apply Z.pow_pos_nonneg; lia).
  replace (2 ^ 1 * 2 ^ (53 - t)) with (2 * 2 ^ (53 - t)) by done.
  rewrite Z.div_mul_cancel_r by lia.
  assert (0 ≤ s / 2 ≤ s).
  { split; [apply Z.div_pos; lia|]. apply Z.div_le_upper_bound; lia. }
  unfold max_int in *.
  replace ((- 2 ^ 63 <=? s / 2) && (s / 2 <=? 2 ^ 63 - 1)) with true; [done|].
  symmetry. apply andb_true_iff. split; apply Z.leb_le; nia.
Qed.

(** X1. For a share count that is the square of any [s ≥ 1] (odd or even),
    held exactly by a float64, [int(math.Sqrt(float64(N)) / 2)] is [s / 2]
    rounded down: the half of an odd side is truncated. *)
Theorem odsWidthOf_perfect_square (s N : Z) :
  1 ≤ s → N = s * s → N ≤ max_int → float64_exact N →
  odsWidthOf N = s / 2.
Proof. apply odsWidthOf_any_square. Qed.

Section MoreProperties.

Context {Cid : Type} `{EqDecision Cid}.
Variable ParitySharesNamespaceID : list byte.
Variable CidFromNamespacedSha256 : list byte → error + Cid.
Variable Sha256Namespace8FlaggedLeaf : list byte → list byte.
Variable Sha256Namespace8FlaggedInner : list byte → list byte.
Variable importSquare :
  list slice → Z → heap → heap * (error + ExtendedDataSquare * list (Cid * list byte)).
Variable fault : list (@entry Cid) → @call Cid → option error.
Variable keysOrder : list Cid → list Cid.

Local Abbreviation call := (@call Cid).
Local Abbreviation entry := (@entry Cid).
Local Abbreviation world := (@world Cid).
Local Abbreviation M := (@M Cid).
Local Abbreviation prependNamespace :=
  (prependNamespace (Cid:=Cid) ParitySharesNamespaceID).
Local Abbreviation getQuadrantCells := (getQuadrantCells (Cid:=Cid)).
Local Abbreviation quadrantOrder :=
  (quadrantOrder (Cid:=Cid) ParitySharesNamespaceID).
Local Abbreviation initializeWriter := (initializeWriter importSquare fault).
Local Abbreviation rootsToCids := (rootsToCids CidFromNamespacedSha256).
Local Abbreviation writeHeader := (writeHeader CidFromNamespacedSha256 fault).
Local Abbreviation writeQuadrants :=
  (writeQuadrants ParitySharesNamespaceID CidFromNamespacedSha256
     Sha256Namespace8FlaggedLeaf fault).
Local Abbreviation writeProofs :=
  (writeProofs CidFromNamespacedSha256 Sha256Namespace8FlaggedInner fault
     keysOrder).
Local Abbreviation WriteEDS :=
  (WriteEDS ParitySharesNamespaceID CidFromNamespacedSha256
     Sha256Namespace8FlaggedLeaf Sha256Namespace8FlaggedInner importSquare
     fault keysOrder).
Local Abbreviation leaf_entry :=
  (leaf_entry CidFromNamespacedSha256 Sha256Namespace8FlaggedLeaf).
Local Abbreviation proof_block :=
  (proof_block CidFromNamespacedSha256 Sha256Namespace8FlaggedInner).

(** ** The sections of the archive *)

(** A loop that returns has run its body, with success, on every element in
    order. *)
Lemma foldM_ok_prefix {A B} (I : list A → B → world → Prop)
    (f : B → A → M B) (l pre : list A) (b b' : B) (w w' : world) :
  I pre b w →
  (∀ done a b w b1 w1,
     I done b w → f b a w = (w1, Ok b1) → I (done ++ [a]) b1 w1) →
  foldM f l b w = (w', Ok b') → I (pre ++ l) b' w'.
Proof.
  intros HI Hstep. revert pre b w HI.
  induction l as [|a l IH]; intros pre b w HI; simpl.
  - intros [= <- <-]. by rewrite app_nil_r.
  - unfold bind. destruct (f b a w) as [w1 [b1|e|p]] eqn:Hf; [|done..].
    intros Hrest. replace (pre ++ a :: l) with ((pre ++ [a]) ++ l)
      by (by rewrite <- app_assoc).
    eapply IH; [|exact Hrest]. by eapply Hstep.
Qed.

(** The loop of [writeQuadrants] over the leaves. *)
Local Abbreviation writeLeaves :=
  (forM_ (λ share : slice,
     let* data := read share in
     let* cid := wrapped "failure to get cid from share"
                   (lift (of_sum (CidFromNamespacedSha256
                                    (Sha256Namespace8FlaggedLeaf data)))) in
     wrapped "failure to write share" (invoke fault (LdWrite LeafSection cid data)))).

Lemma writeLeaves_ok (l : list slice) (w w' : world) :
  writeLeaves l w = (w', Ok tt) →
  ∃ leaves, mem w' = mem w ∧ log w' = log w ++ leaves ∧
            Forall2 (leaf_entry (mem w)) l leaves.
Proof.
  intros Hloop. unfold forM_ in Hloop.
  change l with ([] ++ l).
  eapply (foldM_ok_prefix
            (λ done _ w2, ∃ leaves, mem w2 = mem w ∧ log w2 = log w ++ leaves ∧
                                    Forall2 (leaf_entry (mem w)) done leaves));
    [| |exact Hloop].
  - exists []. rewrite app_nil_r. split; [done|]. split; [done|]. constructor.
  - intros done share [] w2 [] w3 (leaves & Hm & Hl & HF).
    unfold bind, read, wrapped, lift, of_sum, invoke.
    destruct (CidFromNamespacedSha256 _) as [e|c] eqn:Hcid; [done|].
    destruct (fault _ _); [done|]. intros [= <-]. simpl.
    exists (leaves ++ [(LdWrite LeafSection c (rd (mem w2) share), true)]).
    rewrite Hl, app_assoc. split; [done|]. split; [done|].
    apply Forall2_app; [done|]. constructor; [|constructor].
    exists c. by rewrite <- Hm.
Qed.

Lemma writeQuadrants_leaves (ws : writingSession) (w w' : world) :
  writeQuadrants ws w = (w', Ok tt) →
  ∃ out w1 leaves,
    quadrantOrder (ws_eds ws) w = (w1, Ok out) ∧
    mem w' = mem w1 ∧
    log w' = log w ++ leaves ∧
    Forall2 (leaf_entry (mem w1)) out leaves.
Proof.
  unfold writeQuadrants, bind at 1.
  destruct (quadrantOrder (ws_eds ws) w) as [w1 [out|e|p]] eqn:Hqo; [|done..].
  pose proof (quadrantOrder_log _ _ _ _ _ Hqo) as Hlog1.
  intros Hloop. exists out, w1.
  destruct (writeLeaves_ok _ _ _ Hloop) as (leaves & Hm & Hl & HF).
  exists leaves. rewrite Hl, Hlog1. by repeat split.
Qed.

(** The loop of [writeProofs] over the enumerated keys. *)
Local Abbreviation writeBlocks :=
  (λ ws : writingSession,
   forM_ (λ proofCid : Cid,
     let* node := wrapped "failure to get proof from the blockstore"
                    (getBlock fault (ws_store ws) proofCid) in
     let* cid := wrapped "failure to get cid"
                   (lift (of_sum (CidFromNamespacedSha256
                                    (Sha256Namespace8FlaggedInner node)))) in
     wrapped "failure to write proof to the car"
       (invoke fault (LdWrite ProofSection cid node)))).

Lemma writeBlocks_ok (ws : writingSession) (l : list Cid) (w w' : world) :
  writeBlocks ws l w = (w', Ok tt) →
  ∃ blocks, mem w' = mem w ∧ log w' = log w ++ concat blocks ∧
            Forall2 (proof_block (ws_store ws)) l blocks.
Proof.
  intros Hloop. unfold forM_ in Hloop. change l with ([] ++ l).
  eapply (foldM_ok_prefix
            (λ done _ w2, ∃ blocks, mem w2 = mem w ∧
                                    log w2 = log w ++ concat blocks ∧
                                    Forall2 (proof_block (ws_store ws)) done blocks));
    [| |exact Hloop].
  - exists []. simpl. rewrite app_nil_r. split; [done|]. split; [done|]. constructor.
  - intros done key [] w2 [] w3 (blocks & Hm & Hl & HF).
    unfold bind, getBlock, bind, wrapped, lift, ret, of_sum, invoke.
    destruct (fault (log w2) (Get key)); [done|].
    destruct (store_get (ws_store ws) key) as [d|] eqn:Hget; [|done].
    destruct (CidFromNamespacedSha256 _) as [e|c] eqn:Hcid; [done|].
    destruct (fault _ _); [done|]. intros [= <-]. simpl.
    exists (blocks ++ [[(Get key, true); (LdWrite ProofSection c d, true)]]).
    rewrite Hl, concat_app, <- !app_assoc. simpl.
    split; [done|]. split; [done|].
    apply Forall2_app; [done|]. constructor; [|constructor].
    by exists d, c.
Qed.

Lemma writeProofs_blocks (ws : writingSession) (w w' : world) :
  writeProofs ws w = (w', Ok tt) →
  ∃ blocks,
    log w' = log w ++ (AllKeysChan, true) :: concat blocks ∧
    Forall2 (proof_block (ws_store ws)) (keysOrder (ws_store ws).*1) blocks ∧
    mem w' = mem w.
Proof.
  unfold writeProofs. cbv zeta. unfold bind at 1, wrapped at 1, invoke at 1.
  destruct (fault (log w) AllKeysChan); [done|].
  intros Hloop.
  destruct (writeBlocks_ok _ _ _ _ Hloop) as (blocks & Hm & Hl & HF).
  exists blocks. rewrite Hl, Hm. simpl. rewrite <- app_assoc. by repeat split.
Qed.


(** X6. In every call, also one that fails, the calls to the sink come in the
    order header, leaves, proofs: one header at most; a leaf is written only
    after the header was written with success, a proof only after the header
    and every leaf were. *)
Theorem sections_in_order (eds : ExtendedDataSquare) (w w' : world)
    (r : result unit) :
  WriteEDS eds w = (w', r) →
  ∃ d hdr leaves proofs,
    log w' = log w ++ d ∧
    sink_calls d = hdr ++ leaves ++ proofs ∧
    (length hdr ≤ 1)%nat ∧
    Forall (λ en, ∃ cids, en.1 = WriteHeader cids 1) hdr ∧
    Forall (λ en, ∃ c data, en.1 = LdWrite LeafSection c data) leaves ∧
    Forall (λ en, ∃ c data, en.1 = LdWrite ProofSection c data) proofs ∧
    (leaves ++ proofs ≠ [] → ∃ cids, hdr = [(WriteHeader cids 1, true)]) ∧
    (proofs ≠ [] → Forall succeeded leaves).
Proof.
  unfold WriteEDS, bind, wrapped, ret.
  destruct (initializeWriter eds w) as [w1 r1] eqn:H1.
  destruct (initializeWriter_appends _ _ eds w w1 r1 H1) as (d1 & Hl1 & HQ1 & _).
  assert (Hs1 : sink_calls d1 = []).
  { apply sink_calls_none. eapply Forall_impl; [exact HQ1|].
    intros [c ok]. simpl. destruct c; try done. by destruct sec. }
  assert (Hnone : ∀ w0 : world, log w0 = log w ++ d1 →
    ∃ d hdr leaves proofs,
      log w0 = log w ++ d ∧ sink_calls d = hdr ++ leaves ++ proofs ∧
      (length hdr ≤ 1)%nat ∧
      Forall (λ en : entry, ∃ cids, en.1 = WriteHeader cids 1) hdr ∧
      Forall (λ en : entry, ∃ c data, en.1 = LdWrite LeafSection c data) leaves ∧
      Forall (λ en : entry, ∃ c data, en.1 = LdWrite ProofSection c data) proofs ∧
      (leaves ++ proofs ≠ [] → ∃ cids, hdr = [(WriteHeader cids 1, true)]) ∧
      (proofs ≠ [] → Forall succeeded leaves)).
  { intros w0 Hw0. exists d1, [], [], []. rewrite Hs1.
    split; [done|]. split; [done|]. split; [simpl; lia|].
    split; [constructor|]. split; [constructor|]. split; [constructor|].
    split; by intros []. }
  destruct r1 as [ws|e|p]; [|intros [= <- <-]; by apply Hnone..].
  destruct (writeHeader ws w1) as [w2 r2] eqn:H2.
  destruct (writeHeader_run _ _ _ _ _ _ H2)
    as [[-> Hbad]|(cids & ok & Hcids & Hl2 & Hok)].
  { destruct r2 as [[]|e|p]; [done|..]; intros [= <- <-]; by apply Hnone. }
  clear Hnone.
  assert (Hhdr : Forall (λ en : entry, ∃ cids0, en.1 = WriteHeader cids0 1)
                   [(WriteHeader cids 1, ok)]).
  { constructor; [by exists cids|constructor]. }
  destruct r2 as [[]|e|p].
  2,3: intros [= <- <-]; exists (d1 ++ [(WriteHeader cids 1, ok)]),
         [(WriteHeader cids 1, ok)], [], [];
       rewrite Hl2, Hl1, <- app_assoc, sink_calls_app, Hs1;
       (split; [done|]); (split; [done|]); (split; [simpl; lia|]);
       (split; [exact Hhdr|]); (split; [constructor|]); (split; [constructor|]);
       split; by intros [].
  simpl in Hok. subst ok.
  destruct (writeQuadrants ws w2) as [w3 r3] eqn:H3.
  destruct (writeQuadrants_appends _ _ _ _ ws w2 w3 r3 H3) as (d3 & Hl3 & HQ3 & Hset3).
  assert (Hs3 : sink_calls d3 = d3).
  { clear -HQ3. induction HQ3 as [|en d Hen Hd IH]; [done|].
    unfold sink_calls in *. destruct Hen as (c & data & Hen).
    rewrite filter_cons_True by (rewrite Hen; exact I). f_equal. exact IH. }
  assert (Hsplit : ∀ d : list entry,
    sink_calls (d1 ++ [(WriteHeader cids 1, true)] ++ d3 ++ d)
    = [(WriteHeader cids 1, true)] ++ d3 ++ sink_calls d).
  { intros d.
    trans (sink_calls d1 ++ sink_calls [(WriteHeader cids 1, true)]
             ++ sink_calls d3 ++ sink_calls d);
      [unfold sink_calls; by rewrite !filter_app|].
    by rewrite Hs1, Hs3. }
  destruct r3 as [[]|e|p].
  2,3: intros [= <- <-]; exists (d1 ++ [(WriteHeader cids 1, true)] ++ d3 ++ []),
         [(WriteHeader cids 1, true)], d3, [];
       rewrite Hsplit, Hl3, Hl2, Hl1, <- !app_assoc;
       (split; [by rewrite app_nil_r|]); (split; [done|]); (split; [simpl; lia|]);
       (split; [exact Hhdr|]); (split; [exact HQ3|]); (split; [constructor|]);
       (split; [by eauto|by intros []]).
  destruct (writeProofs ws w3) as [w4 r4] eqn:H4.
  destruct (writeProofs_appends _ _ _ _ ws w3 w4 r4 H4) as (d4 & Hl4 & HQ4 & _).
  intros Hrun. assert (w' = w4) as -> by (destruct r4; by simplify_eq).
  exists (d1 ++ [(WriteHeader cids 1, true)] ++ d3 ++ d4),
    [(WriteHeader cids 1, true)], d3, (sink_calls d4).
  rewrite Hsplit, Hl4, Hl3, Hl2, Hl1, <- !app_assoc.
  split; [done|]. split; [done|]. split; [simpl; lia|].
  split; [exact Hhdr|]. split; [exact HQ3|].
  split; [|split; [by eauto|by intros _]].
  clear -HQ4. induction HQ4 as [|en d Hen Hd IH]; [constructor|].
  unfold sink_calls in *. destruct en as [c ok]. simpl in *.
  destruct c; try (rewrite filter_cons_False by (simpl; intros Hf; exact Hf); exact IH).
  - done.
  - destruct sec; [done|].
    rewrite filter_cons_True by (simpl; exact I). constructor; [|exact IH].
    simpl. by eauto.
Qed.

(** ** Outcomes of code that returns no error *)

Lemma outcome_bind {A B} (Mid : A → world → Prop) (Post : B → world → Prop)
    (Bad : panic → Prop) (m : M A) (f : A → M B) (w : world) :
  outcome (m w) Mid Bad →
  (∀ a w1, Mid a w1 → outcome (f a w1) Post Bad) →
  outcome (bind m f w) Post Bad.
Proof.
  unfold outcome, bind. destruct (m w) as [w1 [a|e|p]]; simpl; [|done..].
  intros HM Hf. by apply Hf.
Qed.

Lemma outcome_mono {A} (P P' : A → world → Prop) (Bad : panic → Prop)
    (x : world * result A) :
  outcome x P Bad → (∀ a w, P a w → P' a w) → outcome x P' Bad.
Proof. unfold outcome. destruct x as [w [a|e|p]]; simpl; auto. Qed.

Lemma outcome_foldM_from {B} (I : Z → B → world → Prop) (Bad : panic → Prop)
    (f : B → Z → M B) (len : nat) (m : Z) (b : B) (w : world) :
  I m b w →
  (∀ i b w, m ≤ i < m + Z.of_nat len → I i b w →
     outcome (f b i w) (I (i + 1)) Bad) →
  outcome (foldM f (seqZ m (Z.of_nat len)) b w) (I (m + Z.of_nat len)) Bad.
Proof.
  revert m b w. induction len as [|len IH]; intros m b w HI Hstep.
  - simpl. unfold outcome. simpl. by rewrite Z.add_0_r.
  - rewrite seqZ_cons by lia. simpl.
    replace (Z.pred (Z.of_nat (S len))) with (Z.of_nat len) by lia.
    eapply outcome_bind; [apply Hstep; [lia|done]|].
    intros b1 w1 HI1.
    replace (m + Z.of_nat (S len)) with (Z.succ m + Z.of_nat len) by lia.
    apply IH; [by replace (Z.succ m) with (m + 1) by lia|].
    intros i b' w' Hi. apply Hstep. lia.
Qed.

Lemma outcome_foldM {B} (I : Z → B → world → Prop) (Bad : panic → Prop)
    (f : B → Z → M B) (n : Z) (b : B) (w : world) :
  0 ≤ n → I 0 b w →
  (∀ i b w, 0 ≤ i < n → I i b w → outcome (f b i w) (I (i + 1)) Bad) →
  outcome (foldM f (seqZ 0 n) b w) (I n) Bad.
Proof.
  intros Hn HI Hstep.
  pose proof (outcome_foldM_from I Bad f (Z.to_nat n) 0 b w HI) as Hfold.
  rewrite Z2Nat.id in Hfold by lia. apply Hfold.
  intros i b0 w0 Hi. apply Hstep. lia.
Qed.

(** ** [quadrantOrder] on a matrix of any width *)

Lemma half_bounds (W : Z) :
  0 ≤ W → W * W ≤ max_int →
  0 ≤ W / 2 ∧ 2 * (W / 2) ≤ W ∧ W < 2 ^ 32 ∧
  4 * (W / 2 * (W / 2)) ≤ W * W.
Proof.
  unfold max_int. intros HW Hmax.
  assert (H0 : 0 ≤ W / 2) by (apply Z.div_pos; lia).
  assert (H2 : 2 * (W / 2) ≤ W) by (apply Z.mul_div_le; lia).
  repeat split; [done|done|nia|nia].
Qed.

Lemma getQuadrantCells_any (eds : ExtendedDataSquare) (i j : Z) (w : world) :
  0 ≤ Width eds → Width eds * Width eds ≤ max_int →
  0 ≤ i < Width eds / 2 → 0 ≤ j < Width eds / 2 →
  getQuadrantCells eds i j w
  = (w, Ok [cell eds i j; cell eds i (j + Width eds / 2);
            cell eds (i + Width eds / 2) j;
            cell eds (i + Width eds / 2) (j + Width eds / 2)]).
Proof.
  intros HW Hmax Hi Hj.
  destruct (half_bounds _ HW Hmax) as (Hh & H2h & Hsmall & _).
  unfold getQuadrantCells, GetCell. cbv zeta.
  rewrite !wrap_uint_small by lia.
  assert (Hin : ∀ x y, 0 ≤ x < Width eds → 0 ≤ y < Width eds →
            (0 <=? x) && (x <? Width eds) && (0 <=? y) && (y <? Width eds) = true).
  { intros x y Hx Hy. rewrite !andb_true_iff.
    repeat split; try apply Z.leb_le; try apply Z.ltb_lt; lia. }
  unfold bind, lift, ret. rewrite !Hin by lia. done.
Qed.

(** One assignment [shares[quadrant*quadrantSize+innerOffset] =
    prependNamespace(quadrant, cells[quadrant])]. *)
Lemma qo_assign (eds : ExtendedDataSquare) (q i j : Z) (cells shares : list slice)
    (c : slice) (w : world) :
  0 ≤ Width eds → Width eds * Width eds ≤ max_int →
  0 ≤ q < 4 → 0 ≤ i < Width eds / 2 → 0 ≤ j < Width eds / 2 →
  index cells q = Ok c → (q = 0 → c = cell eds i j) →
  qo_sized eds shares →
  outcome
    ((let* c := lift (index cells q) in
      let* tagged := prependNamespace q c in
      lift (set_index shares
              (wrap_int (wrap_int (q * (Width eds / 2 * (Width eds / 2)))
                         + wrap_int (wrap_int (i * (Width eds / 2)) + j)))
              tagged)) w)
    (λ shares' _, qo_sized eds shares' ∧
                  (q = 0 → (8 ≤ s_cap (cell eds i j))%nat))
    (λ p, p = PanicSliceBounds ∧ qo_short eds).
Proof.
  intros HW Hmax Hq Hi Hj Hc Hc0 [Hlen Htail].
  destruct (half_bounds _ HW Hmax) as (Hh & H2h & Hsmall & H4).
  set (h := Width eds / 2) in *.
  assert (Hhh : 0 ≤ h * h) by nia.
  assert (Hih : 0 ≤ i * h ∧ i * h + j < h * h) by nia.
  assert (Hqh : 0 ≤ q * (h * h) ∧ q * (h * h) + (i * h + j) < 4 * (h * h)) by nia.
  unfold max_int in Hmax.
  rewrite (wrap_int_small (i * h)) by lia.
  rewrite (wrap_int_small (i * h + j)) by lia.
  rewrite (wrap_int_small (q * (h * h))) by lia.
  rewrite (wrap_int_small (q * (h * h) + (i * h + j))) by lia.
  unfold bind at 1. unfold lift at 1. rewrite Hc.
  assert (Hset : ∀ (t : slice) (w1 : world),
    outcome (lift (set_index shares (q * (h * h) + (i * h + j)) t) w1)
      (λ shares' _, qo_sized eds shares') (λ p, p = PanicSliceBounds ∧ qo_short eds)).
  { intros t w1. unfold lift, set_index, outcome. simpl.
    replace ((0 <=? q * (h * h) + (i * h + j))
             && (q * (h * h) + (i * h + j) <? Z.of_nat (length shares))) with true
      by (symmetry; apply andb_true_iff; split;
          [apply Z.leb_le|apply Z.ltb_lt]; lia).
    split; [by rewrite length_insert|].
    intros n Hn. rewrite list_lookup_insert_ne by lia. by apply Htail. }
  unfold prependNamespace.
  destruct (q =? 0) eqn:Hq0.
  - apply Z.eqb_eq in Hq0. specialize (Hc0 Hq0). subst c.
    unfold bind at 2. unfold lift at 1, reslice.
    destruct (decide (8 ≤ s_cap (cell eds i j))%nat) as [Hroom|Hshort].
    + unfold bind. destruct (go_append _ _ _) as [h1 r1].
      eapply outcome_mono; [apply Hset|]. intros shares' ? Hs. by split.
    + unfold bind, outcome. simpl. split; [done|]. exists i, j. fold h.
      split; [done|]. split; [done|]. lia.
  - apply Z.eqb_neq in Hq0.
    replace ((q =? 1) || (q =? 2) || (q =? 3)) with true; cycle 1.
    { symmetry. rewrite !orb_true_iff, !Z.eqb_eq. lia. }
    unfold bind. destruct (go_append_const _ _ _) as [h1 r1].
    eapply outcome_mono; [apply Hset|]. intros shares' ? Hs. by split.
Qed.

Lemma quadrantOrder_outcome (eds : ExtendedDataSquare) (w : world) :
  0 ≤ Width eds → Width eds * Width eds ≤ max_int →
  outcome (quadrantOrder eds w)
    (λ out _, qo_sized eds out ∧ qo_roomy eds (λ _ _, True))
    (λ p, p = PanicSliceBounds ∧ qo_short eds).
Proof.
  intros HW Hmax.
  destruct (half_bounds _ HW Hmax) as (Hh & H2h & Hsmall & H4).
  unfold quadrantOrder. cbv zeta.
  assert (Hhh : 0 ≤ Width eds / 2 * (Width eds / 2)) by nia.
  pose proof Hmax as Hmax'. unfold max_int in Hmax'.
  rewrite (wrap_uint_small (Width eds * Width eds)) by nia.
  rewrite (wrap_int_small (Width eds / 2)) by lia.
  rewrite (wrap_int_small (Width eds / 2 * (Width eds / 2))) by lia.
  set (h := Width eds / 2) in *.
  eapply (outcome_bind
            (λ shares _, shares = replicate (Z.to_nat (Width eds * Width eds)) nil_slice)).
  { unfold lift, make_slices, outcome. simpl.
    by replace (Width eds * Width eds <=? max_int) with true
      by (symmetry; by apply Z.leb_le). }
  intros shares w1 ->.
  eapply outcome_mono.
  - apply (outcome_foldM
             (λ i shares _, qo_sized eds shares ∧ qo_roomy eds (λ i' _, i' < i)));
      [done| |].
    + split.
      * split; [rewrite length_replicate; lia|].
        intros n Hn. apply lookup_replicate_2. lia.
      * intros i j Hi Hj. lia.
    + intros i sh w2 Hi [Hsz Hroomy].
      eapply outcome_mono.
      * apply (outcome_foldM
                 (λ j shares _, qo_sized eds shares ∧
                    qo_roomy eds (λ i' j', i' < i ∨ (i' = i ∧ j' < j))));
          [done| |].
        -- split; [done|]. intros i' j' Hi' Hj' [Hlt|[_ Hlt]]; [|lia].
           by apply Hroomy.
        -- intros j sh2 w3 Hj [Hsz2 Hroomy2].
           rewrite !wrap_uint_small by lia.
           unfold bind at 1.
           rewrite getQuadrantCells_any by done. fold h.
           change (seqZ 0 4) with [0; 1; 2; 3]. cbn [foldM].
           eapply outcome_bind.
           { eapply (qo_assign eds 0 i j); try done; lia. }
           intros sh3 w4 [Hsz3 Hcap]. cbv beta in Hcap.
           eapply outcome_bind.
           { eapply (qo_assign eds 1 i j); try done; lia. }
           intros sh4 w5 [Hsz4 _].
           eapply outcome_bind.
           { eapply (qo_assign eds 2 i j); try done; lia. }
           intros sh5 w6 [Hsz5 _].
           eapply outcome_bind.
           { eapply (qo_assign eds 3 i j); try done; lia. }
           intros sh6 w7 [Hsz6 _]. unfold ret, outcome. simpl.
           split; [done|].
           intros i' j' Hi' Hj' Hdone.
           destruct (decide (i' = i ∧ j' = j)) as [[-> ->]|Hne].
           ++ by apply Hcap.
           ++ apply Hroomy2; [done|done|]. lia.
      * intros sh' w' [Hsz' Hroomy']. split; [done|].
        intros i' j' Hi' Hj' Hlt. apply Hroomy'; [done|done|]. fold h in Hj'. lia.
  - intros out w' [Hsz Hroomy]. split; [done|].
    intros i j Hi Hj _. apply Hroomy; [done|done|]. fold h in Hi. lia.
Qed.

(** ** Where a call can panic, where it can fail *)

Lemma lift_sum_no_panic {A} (p : panic) (x : error + A) (w : world) :
  (lift (of_sum x) w).2 ≠ Panic p.
Proof. unfold lift, of_sum. simpl. by destruct x. Qed.

Lemma initializeWriter_no_panic (p : panic) (eds : ExtendedDataSquare) (w : world) :
  (initializeWriter eds w).2 ≠ Panic p.
Proof.
  unfold initializeWriter. cbv zeta. case_match; [done|].
  apply bind_no_panic; [done|]. intros _ w1.
  apply bind_no_panic.
  { apply wrapped_no_panic. intros w2. unfold import.
    destruct (importSquare _ _ _) as [h [e|x]]; done. }
  intros x w2. apply bind_no_panic; [done|]. intros _ w3.
  apply bind_no_panic; [|done].
  apply wrapped_no_panic. apply invoke_no_panic.
Qed.

Lemma writeHeader_no_panic (p : panic) (ws : writingSession) (w : world) :
  (writeHeader ws w).2 ≠ Panic p.
Proof.
  unfold writeHeader, rootsToCids. cbv zeta.
  apply bind_no_panic; [|intros; apply invoke_no_panic].
  do 2 apply wrapped_no_panic. apply lift_sum_no_panic.
Qed.

Lemma writeLeaves_no_panic (p : panic) (l : list slice) (w : world) :
  (writeLeaves l w).2 ≠ Panic p.
Proof.
  unfold forM_. apply foldM_no_panic. intros [] share w2 _.
  apply bind_no_panic; [done|]. intros data w3.
  apply bind_no_panic; [apply wrapped_no_panic, lift_sum_no_panic|].
  intros c w4. apply wrapped_no_panic. apply invoke_no_panic.
Qed.

Lemma writeProofs_no_panic (p : panic) (ws : writingSession) (w : world) :
  (writeProofs ws w).2 ≠ Panic p.
Proof.
  unfold writeProofs. cbv zeta.
  apply bind_no_panic; [apply wrapped_no_panic, invoke_no_panic|].
  intros _ w1. unfold forM_. apply foldM_no_panic. intros [] key w2 _.
  apply bind_no_panic.
  { apply wrapped_no_panic. unfold getBlock.
    apply bind_no_panic; [apply invoke_no_panic|]. intros _ w3.
    by case_match. }
  intros node w3.
  apply bind_no_panic; [apply wrapped_no_panic, lift_sum_no_panic|].
  intros c w4. apply wrapped_no_panic. apply invoke_no_panic.
Qed.

Lemma bind_no_err {A B} (m : M A) (f : A → M B) :
  (∀ w e, (m w).2 ≠ Err e) → (∀ a w e, (f a w).2 ≠ Err e) →
  ∀ w e, (bind m f w).2 ≠ Err e.
Proof.
  intros Hm Hf w e. unfold bind. specialize (Hm w).
  destruct (m w) as [w1 [a|e'|p']]; simpl in *; [apply Hf| |done].
  intros _. by apply (Hm e').
Qed.

Lemma foldM_no_err {A B} (f : B → A → M B) (l : list A) :
  (∀ b a w e, (f b a w).2 ≠ Err e) →
  ∀ b w e, (foldM f l b w).2 ≠ Err e.
Proof.
  intros Hf. induction l as [|a l IH]; intros b w e; simpl; [done|].
  apply bind_no_err; [apply Hf|apply IH].
Qed.

Lemma quadrantOrder_no_err (eds : ExtendedDataSquare) (w : world) (e : error) :
  (quadrantOrder eds w).2 ≠ Err e.
Proof.
  revert w e. unfold quadrantOrder. cbv zeta. apply bind_no_err.
  { intros w e. unfold lift, make_slices. simpl. by case_match. }
  intros shares. apply foldM_no_err. intros sh i. apply foldM_no_err.
  intros sh2 j. apply bind_no_err.
  { unfold getQuadrantCells, GetCell. cbv zeta.
    repeat (apply bind_no_err;
            [intros w e; unfold lift; simpl; by case_match|intros ?]).
    done. }
  intros cells. apply foldM_no_err. intros sh3 q.
  apply bind_no_err.
  { intros w e. unfold lift, index. simpl. by repeat case_match. }
  intros c. apply bind_no_err.
  { intros w e. unfold prependNamespace, bind, lift, reslice.
    repeat case_match; simplify_eq; done. }
  intros t w e. unfold lift, set_index. simpl. by case_match.
Qed.

(** A loop that fails has run its body with success on the elements before
    the one at which it failed. *)
Lemma foldM_err_split {A B} (f : B → A → M B) (l : list A) (b : B)
    (w w' : world) (e : error) :
  foldM f l b w = (w', Err e) →
  ∃ pre a post b1 w1,
    l = pre ++ a :: post ∧ foldM f pre b w = (w1, Ok b1) ∧
    f b1 a w1 = (w', Err e).
Proof.
  revert b w. induction l as [|a l IH]; intros b w; simpl; [done|].
  unfold bind. destruct (f b a w) as [w1 [b1|e1|p1]] eqn:Hf.
  - intros Hrest. destruct (IH _ _ Hrest) as (pre & a' & post & b2 & w2 & -> & Hpre & Ha).
    exists (a :: pre), a', post, b2, w2. simpl. unfold bind. by rewrite Hf.
  - intros [= <- <-]. by exists [], a, l, b, w.
  - done.
Qed.

Lemma mapE_inl {A B} (f : A → error + B) (pre post : list A) (a : A) (e : error) :
  Forall (λ x, ∃ b, f x = inr b) pre → f a = inl e →
  mapE f (pre ++ a :: post) = inl e.
Proof.
  intros Hpre Ha. induction Hpre as [|x pre [b Hx] _ IH]; simpl.
  - by rewrite Ha.
  - by rewrite Hx, IH.
Qed.

(** ** The further properties *)

(** X2. For a matrix whose share count is the square of a side [s ≥ 1], odd
    or even, held exactly by a float64, [initializeWriter] sizes the batch
    for [s²] shares and the original width [s / 2], and starts the
    reconstruction with the original width [s / 2]. *)
Theorem initializeWriter_import_width (eds : ExtendedDataSquare) (w : world)
    (s : Z) :
  1 ≤ s → Z.of_nat (length (ExtractEDS eds)) = s * s → s * s ≤ max_int →
  float64_exact (s * s) →
  ∃ ok rest,
    log (initializeWriter eds w).1
    = log w ++ (NewNmtNodeAdder (innerNodeBatchSize (s * s) (s / 2)), true)
               :: (ImportExtendedDataSquare (s / 2), ok) :: rest.
Proof.
  intros Hs HN Hmax Hex.
  assert (Hhalf : 0 ≤ s / 2 ≤ s).
  { split; [apply Z.div_pos; lia|]. apply Z.div_le_upper_bound; lia. }
  unfold initializeWriter. cbv zeta. rewrite HN.
  replace (s * s =? 0) with false by (symmetry; apply Z.eqb_neq; nia).
  rewrite (odsWidthOf_any_square s (s * s)) by done.
  unfold max_int in Hmax. rewrite wrap_uint_small by nia.
  unfold bind, emit, wrapped, import, invoke, ret. simpl.
  destruct (importSquare _ _ _) as [h [e|x]]; simpl.
  - exists false, []. by rewrite <- app_assoc.
  - destruct (fault _ Commit); simpl; eexists true, _;
      rewrite <- !app_assoc; simpl; done.
Qed.

(** X3. When [writeQuadrants] returns without error, what it appended to the
    log is one successful block write per leaf of [quadrantOrder], in the
    order of the leaves, each block holding the tagged share under the
    identifier of its leaf hash. *)
Theorem writeQuadrants_layout (ws : writingSession) (w w' : world) :
  writeQuadrants ws w = (w', Ok tt) →
  ∃ out w1 leaves,
    quadrantOrder (ws_eds ws) w = (w1, Ok out) ∧
    mem w' = mem w1 ∧
    log w' = log w ++ leaves ∧
    Forall2 (leaf_entry (mem w1)) out leaves.
Proof. apply writeQuadrants_leaves. Qed.

(** X4. When [writeProofs] returns without error, what it appended to the log
    is the enumeration of the keys and then, for every key in the order of
    the enumeration, the read of its block from the store and the write of
    that block under the identifier of its inner-node hash. *)
Theorem writeProofs_layout (ws : writingSession) (w w' : world) :
  writeProofs ws w = (w', Ok tt) →
  ∃ blocks,
    log w' = log w ++ (AllKeysChan, true) :: concat blocks ∧
    Forall2 (proof_block (ws_store ws)) (keysOrder (ws_store ws).*1) blocks ∧
    mem w' = mem w.
Proof. apply writeProofs_blocks. Qed.

(** X7. Tagging a quadrant-0 share whose capacity has room for the share
    behind its first 8 bytes appends in place: no array is allocated, the
    result lives in the array of the share at the same offset, and the share
    itself is overwritten from its ninth byte on, so that it then reads as
    the beginning of its tagged form. *)
Theorem prependNamespace_in_place (share : slice) (w : world) :
  valid (mem w) share → (8 ≤ s_len share)%nat →
  (8 + s_len share ≤ s_cap share)%nat →
  ∃ w' r,
    prependNamespace 0 share w = (w', Ok r) ∧
    length (mem w') = length (mem w) ∧
    s_arr r = s_arr share ∧ s_off r = s_off share ∧
    rd (mem w') r = take 8 (rd (mem w) share) ++ rd (mem w) share ∧
    rd (mem w') share
    = take (s_len share) (take 8 (rd (mem w) share) ++ rd (mem w) share).
Proof.
  intros Hv Hlen Hroom. pose proof Hv as (a & Ha & Hoff & Hcap).
  pose proof (rd_length _ _ Hv) as Hrdlen.
  unfold prependNamespace, bind, lift, reslice. simpl.
  rewrite decide_True by lia. unfold go_append. simpl.
  rewrite decide_True by lia.
  eexists _, _. split; [done|]. simpl.
  split; [by rewrite length_alter|]. split; [done|]. split; [done|].
  assert (Hns : take 8 (drop (s_off share) a) = take 8 (rd (mem w) share)).
  { unfold rd. rewrite Ha. simpl. rewrite take_take. f_equal. lia. }
  assert (Hnew : take (8 + length (rd (mem w) share))
                   (drop (s_off share)
                      (blit a (s_off share + 8) (rd (mem w) share)))
                 = take 8 (rd (mem w) share) ++ rd (mem w) share).
  { rewrite blit_read by lia. by rewrite Hns. }
  split.
  - unfold rd at 1. simpl. rewrite list_lookup_alter_eq, Ha. simpl. exact Hnew.
  - unfold rd at 1. rewrite list_lookup_alter_eq, Ha. simpl.
    rewrite <- Hnew, take_take. f_equal. lia.
Qed.

(** X8. On a matrix of any width [W ≥ 0], odd or even, with [W²] an [int],
    whose quadrant-0 cells have a capacity of 8 bytes or more,
    [quadrantOrder] returns, without a call to the collaborators, [W²]
    slots; the slots from [4·(W/2)²] on, which an odd width leaves behind
    the four quadrants, are nil: the last row and column are not copied. *)
Theorem quadrantOrder_returns (eds : ExtendedDataSquare) (w : world) :
  0 ≤ Width eds → Width eds * Width eds ≤ max_int →
  (∀ i j, 0 ≤ i < Width eds / 2 → 0 ≤ j < Width eds / 2 →
          (8 ≤ s_cap (cell eds i j))%nat) →
  ∃ out w',
    quadrantOrder eds w = (w', Ok out) ∧ log w' = log w ∧
    Z.of_nat (length out) = Width eds * Width eds ∧
    ∀ n, 4 * (Width eds / 2 * (Width eds / 2)) ≤ n < Width eds * Width eds →
         out !! Z.to_nat n = Some nil_slice.
Proof.
  intros HW Hmax Hroomy.
  pose proof (quadrantOrder_outcome eds w HW Hmax) as Hout.
  destruct (quadrantOrder eds w) as [w' r] eqn:Hrun.
  pose proof (quadrantOrder_log _ _ _ _ _ Hrun) as Hlog.
  unfold outcome in Hout. simpl in Hout.
  destruct r as [out|e|p]; [|done|].
  - destruct Hout as [[Hlen Htail] _]. by exists out, w'.
  - destruct Hout as [_ (i & j & Hi & Hj & Hshort)].
    specialize (Hroomy i j Hi Hj). lia.
Qed.

(** X9. On a matrix of width [W ≥ 0] with [W²] an [int], a quadrant-0 cell
    whose capacity is below 8 bytes makes [quadrantOrder] panic with a
    slice-bounds error (from [share[:8]]), without a call to the
    collaborators. *)
Theorem quadrantOrder_short_share (eds : ExtendedDataSquare) (w : world)
    (i j : Z) :
  0 ≤ Width eds → Width eds * Width eds ≤ max_int →
  0 ≤ i < Width eds / 2 → 0 ≤ j < Width eds / 2 →
  (s_cap (cell eds i j) < 8)%nat →
  ∃ w', quadrantOrder eds w = (w', Panic PanicSliceBounds) ∧ log w' = log w.
Proof.
  intros HW Hmax Hi Hj Hshort.
  pose proof (quadrantOrder_outcome eds w HW Hmax) as Hout.
  destruct (quadrantOrder eds w) as [w' r] eqn:Hrun.
  pose proof (quadrantOrder_log _ _ _ _ _ Hrun) as Hlog.
  unfold outcome in Hout. simpl in Hout.
  destruct r as [out|e|p]; [|done|].
  - destruct Hout as [_ Hroomy]. specialize (Hroomy i j Hi Hj I). lia.
  - destruct Hout as [-> _]. by exists w'.
Qed.

(** X10. A call of [WriteEDS] that panics panics in [quadrantOrder]: the
    reconstruction has returned a session, the header has been written with
    success, and no block has been written. *)
Theorem WriteEDS_panic (eds : ExtendedDataSquare) (w w' : world) (p : panic) :
  WriteEDS eds w = (w', Panic p) →
  ∃ ws w1 w2 size odsWidth cids,
    initializeWriter eds w = (w1, Ok ws) ∧
    writeHeader ws w1 = (w2, Ok tt) ∧
    quadrantOrder (ws_eds ws) w2 = (w', Panic p) ∧
    log w' = log w ++ [(NewNmtNodeAdder size, true);
                       (ImportExtendedDataSquare odsWidth, true);
                       (ComputeRowRoots, true); (Commit, true);
                       (WriteHeader cids 1, true)].
Proof.
  unfold WriteEDS, bind, wrapped, ret.
  destruct (initializeWriter eds w) as [w1 [ws|e|p1]] eqn:H1; [|done|].
  2: { by destruct (initializeWriter_no_panic p1 eds w); rewrite H1. }
  destruct (initializeWriter_ok_log _ _ _ _ _ _ H1) as (size & odsWidth & Hl1).
  destruct (writeHeader ws w1) as [w2 [[]|e|p2]] eqn:H2; [|done|].
  2: { by destruct (writeHeader_no_panic p2 ws w1); rewrite H2. }
  destruct (writeHeader_run _ _ _ _ _ _ H2)
    as [[_ Hbad]|(cids & ok & _ & Hl2 & Hok)]; [done|].
  simpl in Hok. subst ok.
  destruct (writeQuadrants ws w2) as [w3 [[]|e|p3]] eqn:H3; [|done|].
  { pose proof (writeProofs_no_panic p ws w3) as Hnp.
    destruct (writeProofs ws w3) as [w4 [[]|e|p4]]; [done|done|].
    intros [= <- <-]. by destruct Hnp. }
  intros [= <- <-]. exists ws, w1, w2, size, odsWidth, cids.
  split; [done|]. split; [done|].
  unfold writeQuadrants in H3. unfold bind at 1 in H3.
  destruct (quadrantOrder (ws_eds ws) w2) as [wq [out|e|pq]] eqn:Hqo.
  - by destruct (writeLeaves_no_panic p3 out wq); rewrite H3.
  - done.
  - simplify_eq. split; [done|].
    apply quadrantOrder_log in Hqo. by rewrite Hqo, Hl2, Hl1, <- app_assoc.
Qed.

(** X11. When the identifier of a root cannot be derived, the roots before it
    in the row roots followed by the column roots having theirs,
    [writeHeader] writes nothing: it returns that error, annotated by
    [rootsToCids] and by [writeHeader], and the world is as before. *)
Theorem writeHeader_bad_root (ws : writingSession) (w : world)
    (pre post : list (list byte)) (root : list byte) (e : error) :
  RowRoots (ws_eds ws) ++ ColRoots (ws_eds ws) = pre ++ root :: post →
  Forall (λ x, ∃ c, CidFromNamespacedSha256 x = inr c) pre →
  CidFromNamespacedSha256 root = inl e →
  writeHeader ws w
  = (w, Err (Errorf "failure getting root cids"
               (Errorf "failure to get cid from root" e))).
Proof.
  intros Hroots Hpre Hroot.
  unfold writeHeader, rootsToCids, bind, wrapped, lift, of_sum. cbv zeta.
  by rewrite Hroots, (mapE_inl _ _ _ _ _ Hpre Hroot).
Qed.

(** X12. When [writeQuadrants] fails, the leaves before the failing one have
    been written with success, in order, and no leaf after it has been
    tried: either the identifier of the failing leaf could not be derived,
    and nothing was written for it, or its write failed and is the last
    call in the log. *)
Theorem writeQuadrants_failure (ws : writingSession) (w w' : world) (e : error) :
  writeQuadrants ws w = (w', Err e) →
  ∃ out w1 pre share post leaves,
    quadrantOrder (ws_eds ws) w = (w1, Ok out) ∧
    out = pre ++ share :: post ∧
    Forall2 (leaf_entry (mem w1)) pre leaves ∧
    ((∃ e0,
        CidFromNamespacedSha256 (Sha256Namespace8FlaggedLeaf (rd (mem w1) share))
          = inl e0 ∧
        e = Errorf "failure to get cid from share" e0 ∧
        log w' = log w ++ leaves) ∨
     (∃ c e0,
        CidFromNamespacedSha256 (Sha256Namespace8FlaggedLeaf (rd (mem w1) share))
          = inr c ∧
        fault (log w ++ leaves) (LdWrite LeafSection c (rd (mem w1) share))
          = Some e0 ∧
        e = Errorf "failure to write share" e0 ∧
        log w' = log w ++ leaves
                 ++ [(LdWrite LeafSection c (rd (mem w1) share), false)])).
Proof.
  unfold writeQuadrants, bind at 1.
  destruct (quadrantOrder (ws_eds ws) w) as [w1 [out|e1|p]] eqn:Hqo; [| |done].
  2: { by destruct (quadrantOrder_no_err (ws_eds ws) w e1); rewrite Hqo. }
  pose proof (quadrantOrder_log _ _ _ _ _ Hqo) as Hlog1.
  intros Hloop. unfold forM_ in Hloop.
  destruct (foldM_err_split _ _ _ _ _ _ Hloop)
    as (pre & share & post & [] & w2 & -> & Hpre & Hstep).
  destruct (writeLeaves_ok _ _ _ Hpre) as (leaves & Hm & Hl & HF).
  exists (pre ++ share :: post), w1, pre, share, post, leaves.
  split; [done|]. split; [done|]. split; [done|].
  revert Hstep. unfold bind, read, wrapped, lift, of_sum, invoke. cbv beta.
  rewrite Hm.
  destruct (CidFromNamespacedSha256 _) as [e0|c] eqn:Hcid.
  - intros [= <- <-]. left. exists e0. by rewrite Hl, Hlog1.
  - destruct (fault _ _) as [e0|] eqn:Hfault; [|done].
    rewrite Hl, Hlog1 in Hfault.
    intros [= <- <-]. right. exists c, e0. simpl.
    by rewrite Hl, Hlog1, <- app_assoc.
Qed.

(** X13. When [writeProofs] fails, either the enumeration of the keys failed
    and nothing else was called, or the blocks of the keys before the
    failing one have been read and written with success, in the order of the
    enumeration, no later key has been tried, and the failing key failed at
    its read from the store, at the derivation of its identifier (after the
    read) or at its write (the last call in the log). *)
Theorem writeProofs_failure (ws : writingSession) (w w' : world) (e : error) :
  writeProofs ws w = (w', Err e) →
  (∃ e0, fault (log w) AllKeysChan = Some e0 ∧
         e = Errorf "failure to get all keys from the blockstore" e0 ∧
         log w' = log w ++ [(AllKeysChan, false)]) ∨
  (∃ pre key post blocks,
     keysOrder (ws_store ws).*1 = pre ++ key :: post ∧
     Forall2 (proof_block (ws_store ws)) pre blocks ∧
     ((∃ e0 ok,
         e = Errorf "failure to get proof from the blockstore" e0 ∧
         log w' = log w ++ (AllKeysChan, true) :: concat blocks
                  ++ [(Get key, ok)]) ∨
      (∃ d e0,
         store_get (ws_store ws) key = Some d ∧
         CidFromNamespacedSha256 (Sha256Namespace8FlaggedInner d) = inl e0 ∧
         e = Errorf "failure to get cid" e0 ∧
         log w' = log w ++ (AllKeysChan, true) :: concat blocks
                  ++ [(Get key, true)]) ∨
      (∃ d c e0,
         store_get (ws_store ws) key = Some d ∧
         CidFromNamespacedSha256 (Sha256Namespace8FlaggedInner d) = inr c ∧
         e = Errorf "failure to write proof to the car" e0 ∧
         log w' = log w ++ (AllKeysChan, true) :: concat blocks
                  ++ [(Get key, true); (LdWrite ProofSection c d, false)]))).
Proof.
  unfold writeProofs. cbv zeta. unfold bind at 1, wrapped at 1, invoke at 1.
  destruct (fault (log w) AllKeysChan) as [e0|] eqn:Hkeys.
  { intros [= <- <-]. left. by exists e0. }
  intros Hloop. right. unfold forM_ in Hloop.
  destruct (foldM_err_split _ _ _ _ _ _ Hloop)
    as (pre & key & post & [] & w2 & Hsplit & Hpre & Hstep).
  destruct (writeBlocks_ok ws _ _ _ Hpre) as (blocks & Hm & Hl & HF).
  simpl in Hl. rewrite <- app_assoc in Hl. simpl in Hl.
  exists pre, key, post, blocks. split; [done|]. split; [done|].
  revert Hstep.
  unfold bind, getBlock, bind, wrapped, lift, ret, of_sum, invoke. cbv beta.
  destruct (fault (log w2) (Get key)) as [e0|] eqn:Hget.
  { intros [= <- <-]. left. exists e0, false. split; [done|]. simpl.
    by rewrite Hl, <- app_assoc. }
  destruct (store_get (ws_store ws) key) as [d|] eqn:Hst.
  2: { intros [= <- <-]. left. eexists _, true. split; [done|]. simpl.
       by rewrite Hl, <- app_assoc. }
  simpl.
  destruct (CidFromNamespacedSha256 _) as [e0|c] eqn:Hcid.
  { intros [= <- <-]. right. left. exists d, e0.
    split; [done|]. split; [exact Hcid|]. split; [done|]. simpl.
    by rewrite Hl, <- app_assoc. }
  match goal with
  | |- context [fault ?l (LdWrite ProofSection c d)] =>
      destruct (fault l (LdWrite ProofSection c d)) as [e0|] eqn:Hwrite
  end; [|done].
  intros [= <- <-]. right. right. exists d, c, e0.
  split; [done|]. split; [exact Hcid|]. split; [done|]. simpl.
  by rewrite Hl, <- !app_assoc.
Qed.

(** ** When the call succeeds *)

Lemma foldM_total {A B} (I : B → world → Prop) (f : B → A → M B) (l : list A)
    (b : B) (w : world) :
  I b w →
  (∀ a b w, a ∈ l → I b w → ∃ b' w', f b a w = (w', Ok b') ∧ I b' w') →
  ∃ b' w', foldM f l b w = (w', Ok b') ∧ I b' w'.
Proof.
  revert b w. induction l as [|a l IH]; intros b w HI Hstep; simpl.
  - by exists b, w.
  - destruct (Hstep a b w) as (b1 & w1 & Hf & HI1); [by left|done|].
    unfold bind. rewrite Hf. apply IH; [done|].
    intros a' b' w' Hin. apply Hstep. by right.
Qed.

Lemma mapE_total {A B} (f : A → error + B) (l : list A) :
  (∀ a, ∃ b, f a = inr b) → ∃ bs, mapE f l = inr bs.
Proof.
  intros Hf. induction l as [|a l [bs IH]]; simpl; [by eexists|].
  destruct (Hf a) as [b ->]. rewrite IH. by eexists.
Qed.

Lemma store_get_elem (st : list (Cid * list byte)) (k : Cid) :
  k ∈ st.*1 → ∃ d, store_get st k = Some d.
Proof.
  induction st as [|[k' d'] st IH]; simpl.
  - by intros ?%elem_of_nil.
  - intros Hin. destruct (decide (k' = k)); [by eexists|].
    apply elem_of_cons in Hin as [->|Hin]; [done|]. by apply IH.
Qed.

(** X14. [WriteEDS] returns without error when the matrix holds a share, the
    reconstruction succeeds with a matrix of width [W ≥ 0], [W²] an [int],
    whose quadrant-0 cells have a capacity of 8 bytes or more, no call to
    the sink or the cache fails, every identifier can be derived, and the
    enumeration of the cache yields keys of the cache only. *)
Theorem WriteEDS_succeeds (eds eds' : ExtendedDataSquare) (w : world)
    (h' : heap) (nodes : list (Cid * list byte)) :
  (∀ l c, fault l c = None) →
  (∀ b, ∃ c, CidFromNamespacedSha256 b = inr c) →
  length (ExtractEDS eds) ≠ 0%nat →
  importSquare (ExtractEDS eds)
    (wrap_uint (odsWidthOf (Z.of_nat (length (ExtractEDS eds))))) (mem w)
  = (h', inr (eds', nodes)) →
  0 ≤ Width eds' → Width eds' * Width eds' ≤ max_int →
  (∀ i j, 0 ≤ i < Width eds' / 2 → 0 ≤ j < Width eds' / 2 →
          (8 ≤ s_cap (cell eds' i j))%nat) →
  (∀ k, k ∈ keysOrder (foldl store_put [] nodes).*1 →
        k ∈ (foldl store_put [] nodes).*1) →
  ∃ w', WriteEDS eds w = (w', Ok tt).
Proof.
  intros Hfault Hcid Hne Himport HW Hmax Hroomy Hkeys.
  unfold WriteEDS.
  (* reconstruction *)
  unfold bind at 1, wrapped at 1, initializeWriter. cbv zeta.
  replace (Z.of_nat (length (ExtractEDS eds)) =? 0) with false
    by (symmetry; apply Z.eqb_neq; lia).
  unfold bind at 1, emit at 1. unfold bind at 1, wrapped at 1, import at 1.
  simpl mem. rewrite Himport. simpl.
  unfold bind at 1, emit at 1. unfold bind at 1, wrapped at 1, invoke at 1.
  rewrite Hfault. unfold ret at 1. simpl.
  set (ws := {| ws_eds := eds'; ws_store := foldl store_put [] nodes |}).
  (* header *)
  unfold bind at 1, wrapped at 1, writeHeader, rootsToCids. cbv zeta.
  unfold bind at 1, wrapped at 1 2, lift at 1.
  destruct (mapE_total CidFromNamespacedSha256
              (RowRoots (ws_eds ws) ++ ColRoots (ws_eds ws)) Hcid) as [cids ->].
  simpl. unfold invoke at 1. rewrite Hfault. simpl.
  (* leaves *)
  unfold bind at 1, wrapped at 1, writeQuadrants. unfold bind at 1.
  match goal with
  | |- context [quadrantOrder (ws_eds ws) ?w2] =>
      destruct (quadrantOrder_returns (ws_eds ws) w2 HW Hmax Hroomy)
        as (out & wq & -> & _)
  end.
  cbv beta iota.
  match goal with
  | |- context [forM_ ?f out wq] =>
      destruct (foldM_total (λ _ _, True) (λ _ a, f a) out tt wq I)
        as ([] & w3 & Hleaves & _);
      [|change (forM_ f out wq) with (foldM (λ _ a, f a) out tt wq);
        cbv beta in Hleaves |- *; rewrite Hleaves]
  end.
  { intros share [] w0 _ _.
    unfold bind, read, wrapped, lift, of_sum, invoke.
    destruct (Hcid (Sha256Namespace8FlaggedLeaf (rd (mem w0) share))) as [c ->].
    rewrite Hfault. by eexists tt, _. }
  (* proofs *)
  unfold bind at 1, wrapped at 1, writeProofs. cbv zeta.
  unfold bind at 1, wrapped at 1, invoke at 1. rewrite Hfault.
  match goal with
  | |- context [forM_ ?f ?l ?w0] =>
      destruct (foldM_total (λ _ _, True) (λ _ a, f a) l tt w0 I)
        as ([] & w4 & Hproofs & _);
      [|change (forM_ f l w0) with (foldM (λ _ a, f a) l tt w0);
        cbv beta in Hproofs |- *; rewrite Hproofs]
  end.
  { intros key [] w0 Hin _.
    unfold bind, getBlock, bind, wrapped, lift, ret, of_sum, invoke.
    rewrite Hfault.
    destruct (store_get_elem (ws_store ws) key) as [d ->]; [by apply Hkeys|].
    destruct (Hcid (Sha256Namespace8FlaggedInner d)) as [c ->].
    rewrite Hfault. by eexists tt, _. }
  unfold bind, ret. by eexists.
Qed.

End MoreProperties.

(** * The statements at the small instance *)

Lemma ex_cells_ok : cells_ok ex_heap ex_eds.
Proof.
  intros x y Hx Hy. simpl in Hx, Hy.
  assert (x = 0 ∨ x = 1) as [-> | ->] by lia;
    assert (y = 0 ∨ y = 1) as [-> | ->] by lia;
    (split; [eexists; split; [reflexivity|simpl; lia]|simpl; lia]).
Qed.

Lemma quadrantOrder_layout_witness :
  ∃ out w',
    quadrantOrder (Cid:=list byte) ex_parity ex_eds ex_world = (w', Ok out) ∧
    Z.of_nat (length out) = Width ex_eds * Width ex_eds ∧
    rd (mem w') <$> out !! Z.to_nat (0 * (1 * 1) + (0 * 1 + 0))
      = Some (take 8 (rd ex_heap (cell ex_eds 0 0)) ++ rd ex_heap (cell ex_eds 0 0)) ∧
    rd (mem w') <$> out !! Z.to_nat (1 * (1 * 1) + (0 * 1 + 0))
      = Some (ex_parity ++ rd ex_heap (cell ex_eds 0 (0 + 1))) ∧
    rd (mem w') <$> out !! Z.to_nat (2 * (1 * 1) + (0 * 1 + 0))
      = Some (ex_parity ++ rd ex_heap (cell ex_eds (0 + 1) 0)) ∧
    rd (mem w') <$> out !! Z.to_nat (3 * (1 * 1) + (0 * 1 + 0))
      = Some (ex_parity ++ rd ex_heap (cell ex_eds (0 + 1) (0 + 1))).
Proof.
  apply (quadrantOrder_layout ex_parity ex_eds 1 0 0 ex_world).
  - exact ex_cells_ok.
  - reflexivity.
  - lia.
  - unfold max_int. simpl. lia.
  - lia.
  - lia.
Defined.

Lemma prependNamespace_tagged_witness :
  (∃ w' r, prependNamespace (Cid:=list byte) ex_parity 0 (cell ex_eds 0 0) ex_world
           = (w', Ok r) ∧
           rd (mem w') r = take 8 (ex_share x0a) ++ ex_share x0a) ∧
  (∀ q, q = 1 ∨ q = 2 ∨ q = 3 →
     ∃ w' r, prependNamespace (Cid:=list byte) ex_parity q (cell ex_eds 0 0) ex_world
             = (w', Ok r) ∧
             rd (mem w') r = ex_parity ++ ex_share x0a).
Proof.
  destruct (prependNamespace_tagged ex_parity (cell ex_eds 0 0) ex_world)
    as [Hzero Hparity].
  split; [|exact Hparity].
  apply Hzero.
  - eexists. split; [reflexivity|simpl; lia].
  - simpl. lia.
Defined.



Lemma commit_before_proofs_witness :
  (ex_WriteEDS 0 ex_no_fault ex_world).2 = Ok tt ∧
  ∃ d, log (ex_WriteEDS 0 ex_no_fault ex_world).1 = log ex_world ++ d ∧
    ∀ pre en post, d = pre ++ en :: post → is_proof_call en.1 = true →
      ∃ size odsWidth rest,
        pre = (NewNmtNodeAdder size, true)
              :: (ImportExtendedDataSquare odsWidth, true)
              :: (ComputeRowRoots, true) :: (Commit, true) :: rest.
Proof.
  unfold ex_WriteEDS.
  split; [vm_compute; reflexivity|].
  apply (commit_before_proofs ex_parity ex_cid id id (ex_import 0) ex_no_fault id
           ex_eds ex_world _ (ex_WriteEDS 0 ex_no_fault ex_world).2).
  exact (surjective_pairing _).
Defined.

Lemma empty_square_rejected_witness :
  ∃ e, WriteEDS ex_parity ex_cid id id (ex_import 0) ex_no_fault id ex_empty ex_world
       = (ex_world, Err e) ∧
       errors_Is e ErrEmptySquare = true ∧
       root_cause e = ErrEmptySquare ∧
       kind_of e = ValidationError ∧
       sink_calls (log ex_world)
       = sink_calls (log (WriteEDS ex_parity ex_cid id id (ex_import 0) ex_no_fault
                            id ex_empty ex_world).1).
Proof.
  apply (empty_square_rejected ex_parity ex_cid id id (ex_import 0) ex_no_fault id
           ex_empty ex_world).
  reflexivity.
Defined.

Lemma innerNodeBatchSize_formula_witness :
  innerNodeBatchSize 4 1 = 2 * 4 - 4 * 1 ∧
  ∃ rest, log (initializeWriter (ex_import 0) ex_no_fault ex_eds ex_world).1
          = log ex_world ++ (NewNmtNodeAdder (2 * 4 - 4 * 1), true) :: rest.
Proof.
  destruct (innerNodeBatchSize_formula (ex_import 0) ex_no_fault 4 1 ex_eds ex_world)
    as [Hsize Hbatch].
  - reflexivity.
  - unfold max_int. simpl. lia.
  - split; [exact Hsize|]. apply Hbatch.
    + lia.
    + exists 1, 2. split; [reflexivity|]. split; [lia|]. simpl. lia.
    + reflexivity.
Defined.

Lemma odsWidthOf_exact_witness :
  float64_exact ((2 * 2 ^ 30) ^ 2) ∧ odsWidthOf ((2 * 2 ^ 30) ^ 2) = 2 ^ 30.
Proof.
  assert (Hex : float64_exact ((2 * 2 ^ 30) ^ 2)).
  { exists 1, 62. split; [reflexivity|]. split; [lia|]. simpl. lia. }
  split; [exact Hex|].
  apply (odsWidthOf_exact (2 ^ 30) ((2 * 2 ^ 30) ^ 2)).
  - simpl. lia.
  - reflexivity.
  - unfold max_int. simpl. lia.
  - exact Hex.
Defined.

Lemma first_error_aborts_witness :
  (ex_WriteEDS 0 ex_header_fault ex_world).2
  = Err (Errorf "share: failure writing carv1 header"
           (External IOError "short write")) ∧
  ∃ ph rp d,
    phase_run ex_parity ex_cid id id (ex_import 0) ex_header_fault id ex_eds ph ex_world
      = Some ((ex_WriteEDS 0 ex_header_fault ex_world).1, rp) ∧
    (ex_WriteEDS 0 ex_header_fault ex_world).2 = annotate ph rp ∧
    ((ex_WriteEDS 0 ex_header_fault ex_world).2 = Ok tt → ph = Proofs ∧ rp = Ok tt) ∧
    log (ex_WriteEDS 0 ex_header_fault ex_world).1 = log ex_world ++ d ∧
    Forall (λ en, phase_index (phase_of_call en.1) ≤ phase_index ph) d ∧
    settled d (ex_WriteEDS 0 ex_header_fault ex_world).2 ∧
    ∀ e, (ex_WriteEDS 0 ex_header_fault ex_world).2 = Err e →
      ∃ e0, rp = Err e0 ∧ e = Errorf (annotation ph) e0 ∧
            kind_of e = kind_of e0 ∧ errors_Is e e0 = true.
Proof.
  unfold ex_WriteEDS.
  split; [vm_compute; reflexivity|].
  apply (first_error_aborts ex_parity ex_cid id id (ex_import 0) ex_header_fault id
           ex_eds ex_world).
  exact (surjective_pairing _).
Defined.

Lemma ex_import_private (spare : nat) : private_copy (ex_import spare).
Proof.
  intros shares k h. unfold ex_import. simpl. split.
  - by apply prefix_app_r.
  - intros eds' nodes [= <- _] x y. simpl. lia.
Qed.

Lemma caller_matrix_untouched_witness :
  (mem (ex_WriteEDS 20 ex_no_fault ex_world).1 !! 4%nat
   = Some ((take 8 (ex_share x0a) ++ ex_share x0a) ++ replicate 12 x00)) ∧
  mem ex_world `prefix_of` mem (ex_WriteEDS 20 ex_no_fault ex_world).1 ∧
  ∀ x y, valid (mem ex_world) (cell ex_eds x y) →
         rd (mem (ex_WriteEDS 20 ex_no_fault ex_world).1) (cell ex_eds x y)
         = rd (mem ex_world) (cell ex_eds x y).
Proof.
  unfold ex_WriteEDS.
  split; [vm_compute; reflexivity|].
  apply (caller_matrix_untouched ex_parity ex_cid id id (ex_import 20) ex_no_fault id
           ex_eds ex_world _ (ex_WriteEDS 20 ex_no_fault ex_world).2).
  - apply ex_import_private.
  - exact (surjective_pairing _).
Defined.

(** * The further properties at the small instances *)

Lemma odsWidthOf_perfect_square_witness :
  float64_exact (3 * 3) ∧ odsWidthOf (3 * 3) = 3 / 2.
Proof.
  assert (Hex : float64_exact (3 * 3)).
  { exists 9, 0. split; [reflexivity|]. split; [lia|]. simpl. lia. }
  split; [exact Hex|].
  apply (odsWidthOf_perfect_square 3 (3 * 3)).
  - lia.
  - reflexivity.
  - unfold max_int. simpl. lia.
  - exact Hex.
Defined.

Lemma initializeWriter_import_width_witness :
  ∃ ok rest,
    log (initializeWriter (ex_import 0) ex_no_fault ex_odd ex_world).1
    = log ex_world
      ++ (NewNmtNodeAdder (innerNodeBatchSize (3 * 3) (3 / 2)), true)
         :: (ImportExtendedDataSquare (3 / 2), ok) :: rest.
Proof.
  apply (initializeWriter_import_width (ex_import 0) ex_no_fault ex_odd ex_world 3).
  - lia.
  - reflexivity.
  - unfold max_int. simpl. lia.
  - exists 9, 0. split; [reflexivity|]. split; [lia|]. simpl. lia.
Defined.

Lemma writeQuadrants_layout_witness :
  ∃ out w1 leaves,
    quadrantOrder ex_parity (ws_eds ex_session) ex_session_world = (w1, Ok out) ∧
    mem (writeQuadrants ex_parity ex_cid id ex_no_fault ex_session
           ex_session_world).1 = mem w1 ∧
    log (writeQuadrants ex_parity ex_cid id ex_no_fault ex_session
           ex_session_world).1 = log ex_session_world ++ leaves ∧
    Forall2 (leaf_entry ex_cid id (mem w1)) out leaves.
Proof.
  apply (writeQuadrants_layout ex_parity ex_cid id ex_no_fault ex_session
           ex_session_world).
  vm_compute. reflexivity.
Defined.

Lemma writeProofs_layout_witness :
  ∃ blocks,
    log (writeProofs ex_cid id ex_no_fault id ex_session ex_session_world).1
    = log ex_session_world ++ (AllKeysChan, true) :: concat blocks ∧
    Forall2 (proof_block ex_cid id (ws_store ex_session))
      (id (ws_store ex_session).*1) blocks ∧
    mem (writeProofs ex_cid id ex_no_fault id ex_session ex_session_world).1
    = mem ex_session_world.
Proof.
  apply (writeProofs_layout ex_cid id ex_no_fault id ex_session ex_session_world).
  vm_compute. reflexivity.
Defined.


Lemma sections_in_order_witness :
  ∃ d hdr leaves proofs,
    log (ex_WriteEDS 0 ex_no_fault ex_world).1 = log ex_world ++ d ∧
    sink_calls d = hdr ++ leaves ++ proofs ∧
    (length hdr ≤ 1)%nat ∧
    Forall (λ en, ∃ cids, en.1 = WriteHeader cids 1) hdr ∧
    Forall (λ en, ∃ c data, en.1 = LdWrite LeafSection c data) leaves ∧
    Forall (λ en, ∃ c data, en.1 = LdWrite ProofSection c data) proofs ∧
    (leaves ++ proofs ≠ [] → ∃ cids, hdr = [(WriteHeader cids 1, true)]) ∧
    (proofs ≠ [] → Forall succeeded leaves).
Proof.
  unfold ex_WriteEDS.
  apply (sections_in_order ex_parity ex_cid id id (ex_import 0) ex_no_fault id
           ex_eds ex_world _ (ex_WriteEDS 0 ex_no_fault ex_world).2).
  exact (surjective_pairing _).
Defined.

Lemma prependNamespace_in_place_witness :
  ∃ w' r,
    prependNamespace (Cid:=list byte) ex_parity 0 ex_roomy_share
      (World ex_roomy_heap []) = (w', Ok r) ∧
    length (mem w') = length ex_roomy_heap ∧
    s_arr r = s_arr ex_roomy_share ∧ s_off r = s_off ex_roomy_share ∧
    rd (mem w') r
    = take 8 (rd ex_roomy_heap ex_roomy_share) ++ rd ex_roomy_heap ex_roomy_share ∧
    rd (mem w') ex_roomy_share
    = take (s_len ex_roomy_share)
        (take 8 (rd ex_roomy_heap ex_roomy_share)
         ++ rd ex_roomy_heap ex_roomy_share).
Proof.
  apply (prependNamespace_in_place (Cid:=list byte) ex_parity ex_roomy_share
           (World ex_roomy_heap [])).
  - eexists. split; [reflexivity|]. simpl. lia.
  - simpl. lia.
  - simpl. lia.
Defined.

Lemma quadrantOrder_returns_witness :
  ∃ out w',
    quadrantOrder (Cid:=list byte) ex_parity ex_odd ex_world = (w', Ok out) ∧
    log w' = log ex_world ∧
    Z.of_nat (length out) = Width ex_odd * Width ex_odd ∧
    ∀ n, 4 * (Width ex_odd / 2 * (Width ex_odd / 2)) ≤ n
         < Width ex_odd * Width ex_odd →
         out !! Z.to_nat n = Some nil_slice.
Proof.
  apply (quadrantOrder_returns (Cid:=list byte) ex_parity ex_odd ex_world).
  - simpl. lia.
  - unfold max_int. simpl. lia.
  - intros i j Hi Hj. simpl. lia.
Defined.

Lemma quadrantOrder_short_share_witness :
  ∃ w', quadrantOrder (Cid:=list byte) ex_parity ex_short ex_world
        = (w', Panic PanicSliceBounds) ∧
        log w' = log ex_world.
Proof.
  apply (quadrantOrder_short_share (Cid:=list byte) ex_parity ex_short ex_world 0 0).
  - simpl. lia.
  - unfold max_int. simpl. lia.
  - change (Width ex_short / 2) with 1. lia.
  - change (Width ex_short / 2) with 1. lia.
  - simpl. lia.
Defined.

Lemma WriteEDS_panic_witness :
  ∃ ws w1 w2 size odsWidth cids,
    initializeWriter ex_import_short ex_no_fault ex_eds ex_world = (w1, Ok ws) ∧
    writeHeader ex_cid ex_no_fault ws w1 = (w2, Ok tt) ∧
    quadrantOrder ex_parity (ws_eds ws) w2
    = ((WriteEDS ex_parity ex_cid id id ex_import_short ex_no_fault id ex_eds
          ex_world).1, Panic PanicSliceBounds) ∧
    log (WriteEDS ex_parity ex_cid id id ex_import_short ex_no_fault id ex_eds
           ex_world).1
    = log ex_world ++ [(NewNmtNodeAdder size, true);
                       (ImportExtendedDataSquare odsWidth, true);
                       (ComputeRowRoots, true); (Commit, true);
                       (WriteHeader cids 1, true)].
Proof.
  apply (WriteEDS_panic ex_parity ex_cid id id ex_import_short ex_no_fault id
           ex_eds ex_world).
  vm_compute. reflexivity.
Defined.

Lemma writeHeader_bad_root_witness :
  writeHeader ex_cid_picky ex_no_fault ex_session ex_world
  = (ex_world,
     Err (Errorf "failure getting root cids"
            (Errorf "failure to get cid from root"
               (External IdentifierDerivationError "bad digest")))).
Proof.
  apply (writeHeader_bad_root ex_cid_picky ex_no_fault ex_session ex_world
           [[x01; x00]; [x01; x01]] [[x02; x01]] [x02; x00]).
  - reflexivity.
  - repeat constructor; eexists; reflexivity.
  - reflexivity.
Defined.

Lemma writeQuadrants_failure_witness :
  ∃ out w1 pre share post leaves,
    quadrantOrder ex_parity (ws_eds ex_session) ex_session_world = (w1, Ok out) ∧
    out = pre ++ share :: post ∧
    Forall2 (leaf_entry ex_cid id (mem w1)) pre leaves ∧
    ((∃ e0,
        ex_cid (id (rd (mem w1) share)) = inl e0 ∧
        Errorf "failure to write share" (External IOError "short write")
        = Errorf "failure to get cid from share" e0 ∧
        log (writeQuadrants ex_parity ex_cid id ex_leaf_fault ex_session
               ex_session_world).1 = log ex_session_world ++ leaves) ∨
     (∃ c e0,
        ex_cid (id (rd (mem w1) share)) = inr c ∧
        ex_leaf_fault (log ex_session_world ++ leaves)
          (LdWrite LeafSection c (rd (mem w1) share)) = Some e0 ∧
        Errorf "failure to write share" (External IOError "short write")
        = Errorf "failure to write share" e0 ∧
        log (writeQuadrants ex_parity ex_cid id ex_leaf_fault ex_session
               ex_session_world).1
        = log ex_session_world ++ leaves
          ++ [(LdWrite LeafSection c (rd (mem w1) share), false)])).
Proof.
  apply (writeQuadrants_failure ex_parity ex_cid id ex_leaf_fault ex_session
           ex_session_world).
  vm_compute. reflexivity.
Defined.

Lemma writeProofs_failure_witness :
  (∃ e0, ex_leaf_fault (log ex_session_world) AllKeysChan = Some e0 ∧
         Errorf "failure to write proof to the car" (External IOError "short write")
         = Errorf "failure to get all keys from the blockstore" e0 ∧
         log (writeProofs ex_cid id ex_leaf_fault id ex_session ex_session_world).1
         = log ex_session_world ++ [(AllKeysChan, false)]) ∨
  (∃ pre key post blocks,
     id (ws_store ex_session).*1 = pre ++ key :: post ∧
     Forall2 (proof_block ex_cid id (ws_store ex_session)) pre blocks ∧
     ((∃ e0 ok,
         Errorf "failure to write proof to the car" (External IOError "short write")
         = Errorf "failure to get proof from the blockstore" e0 ∧
         log (writeProofs ex_cid id ex_leaf_fault id ex_session ex_session_world).1
         = log ex_session_world ++ (AllKeysChan, true) :: concat blocks
           ++ [(Get key, ok)]) ∨
      (∃ d e0,
         store_get (ws_store ex_session) key = Some d ∧
         ex_cid (id d) = inl e0 ∧
         Errorf "failure to write proof to the car" (External IOError "short write")
         = Errorf "failure to get cid" e0 ∧
         log (writeProofs ex_cid id ex_leaf_fault id ex_session ex_session_world).1
         = log ex_session_world ++ (AllKeysChan, true) :: concat blocks
           ++ [(Get key, true)]) ∨
      (∃ d c e0,
         store_get (ws_store ex_session) key = Some d ∧
         ex_cid (id d) = inr c ∧
         Errorf "failure to write proof to the car" (External IOError "short write")
         = Errorf "failure to write proof to the car" e0 ∧
         log (writeProofs ex_cid id ex_leaf_fault id ex_session ex_session_world).1
         = log ex_session_world ++ (AllKeysChan, true) :: concat blocks
           ++ [(Get key, true); (LdWrite ProofSection c d, false)]))).
Proof.
  apply (writeProofs_failure ex_cid id ex_leaf_fault id ex_session
           ex_session_world).
  vm_compute. reflexivity.
Defined.

Lemma WriteEDS_succeeds_witness :
  ∃ w', WriteEDS ex_parity ex_cid id id (ex_import 0) ex_no_fault id ex_eds ex_world
        = (w', Ok tt).
Proof.
  apply (WriteEDS_succeeds ex_parity ex_cid id id (ex_import 0) ex_no_fault id
           ex_eds (ex_matrix 4 0) ex_world
           (ex_import 0 (ExtractEDS ex_eds) 1 ex_heap).1 ex_nodes).
  - intros l c. reflexivity.
  - intros b. exists b. reflexivity.
  - vm_compute. discriminate.
  - vm_compute. reflexivity.
  - simpl. lia.
  - unfold max_int. simpl. lia.
  - intros i j Hi Hj. simpl. lia.
  - intros k Hk. exact Hk.
Defined.
